(** * IQR outlier removal (04_EDA/06_Outlier.ipynb)

    A shallow embedding of the code cell of the notebook:

<<
    Q1 = titanic['age'].quantile(0.25)
    Q3 = titanic['age'].quantile(0.75)
    IQR = Q3 - Q1
    lower_bound = Q1 - 1.5 * IQR
    upper_bound = Q3 + 1.5 * IQR
    titanic_no_outliers = titanic[(titanic['age'] >= lower_bound)
                                  & (titanic['age'] <= upper_bound)]
>>

    The cell is straight-line code over the notebook's global namespace, so
    it is embedded as a state-and-exception monad over a record of the
    variables it touches.  The pandas primitives it calls (column lookup,
    [quantile] with the default linear interpolation, element-wise
    comparison, [&] and boolean-mask indexing) are written out as list
    functions.

    Numbers: in the embedding of the cell a float64 is either a finite
    number or NaN.  Finite numbers are rationals and the arithmetic is
    exact, compared with [==]; that embedding has no rounding, no overflow
    and no infinity, so what is proved over it is stated for finite values.
    [Binary64] gives the arithmetic of the cell on IEEE 754 binary64
    numbers, to evaluate it where the two part ways.  [Store] gives the
    cell over a store of objects, to follow which table a variable refers
    to.  The column name, the literal ['age'] in the notebook, is a
    parameter [col]. *)

From Stdlib Require Import QArith Qreduction Qround Lia Lra Psatz SpecFloat.
From stdpp Require Import base option list sorting strings gmap.

Open Scope Q_scope.

(** ** Floating-point values *)

Inductive float64 : Type :=
  | Real (x : Q)
  | NaN.

Definition fadd (a b : float64) : float64 :=
  match a, b with
  | Real x, Real y => Real (x + y)
  | _, _ => NaN
  end.

Definition fsub (a b : float64) : float64 :=
  match a, b with
  | Real x, Real y => Real (x - y)
  | _, _ => NaN
  end.

Definition fmul (a b : float64) : float64 :=
  match a, b with
  | Real x, Real y => Real (x * y)
  | _, _ => NaN
  end.

(** [a <= b] on floats: every comparison with NaN is [False]. *)
Definition fle (a b : float64) : bool :=
  match a, b with
  | Real x, Real y => Qle_bool x y
  | _, _ => false
  end.

(** ** Tables *)

Inductive cell : Type :=
  | CFloat (f : float64)
  | CStr (s : string).

(** A row maps column names to cells; a name of the table that a row does
    not carry reads as NaN, as in a frame built from records. *)
Record DataFrame : Type := mkDataFrame {
  columns : list string;
  rows : list (gmap string cell)
}.

Definition cell_at (col : string) (r : gmap string cell) : cell :=
  default (CFloat NaN) (r !! col).

Inductive exn : Type :=
  | KeyError (key : string)
  | TypeError
  | ValueError
  | IndexingError
  | NameError (name : string).

Inductive outcome (A : Type) : Type :=
  | Ok (a : A)
  | Raise (e : exn).
Arguments Ok {A} a.
Arguments Raise {A} e.

(** [df[col]]: the column as a series, [KeyError] when the name is absent. *)
Definition getitem (df : DataFrame) (col : string) : outcome (list cell) :=
  if decide (col ∈ columns df) then Ok (cell_at col <$> rows df)
  else Raise (KeyError col).

(** ** Quantiles *)

#[global] Instance Qle_dec (x y : Q) : Decision (x <= y).
Proof.
  destruct (Qle_bool x y) eqn:E.
  - left. by apply Qle_bool_iff.
  - right. intros H. apply Qle_bool_iff in H. congruence.
Defined.

#[global] Instance Qeq_decision (x y : Q) : Decision (x == y) := Qeq_dec x y.

#[global] Instance Qle_transitive : Transitive Qle.
Proof. intros x y z. apply Qle_trans. Qed.

#[global] Instance Qle_total : Total Qle.
Proof.
  intros x y. destruct (Qlt_le_dec x y); [left; by apply Qlt_le_weak | by right].
Qed.

(** The floats of a numeric series; [None] when a cell is not a number. *)
Fixpoint to_numeric (s : list cell) : option (list float64) :=
  match s with
  | [] => Some []
  | CFloat f :: s' => cons f <$> to_numeric s'
  | CStr _ :: _ => None
  end.

(** The non-missing values of a series of floats. *)
Fixpoint dropna (fs : list float64) : list Q :=
  match fs with
  | [] => []
  | Real x :: fs' => x :: dropna fs'
  | NaN :: fs' => dropna fs'
  end.

(** Element [i] of [xs], the last one when [i] is past the end. *)
Definition nth_clamp (xs : list Q) (i : nat) : Q :=
  nth (Nat.min i (length xs - 1)) xs 0.

(** Linear interpolation between the order statistics around the virtual
    index [(n - 1) * q] of the sorted values [xs]. *)
Definition interpolate (xs : list Q) (q : Q) : Q :=
  let h := inject_Z (Z.of_nat (length xs) - 1) * q in
  let j := Qfloor h in
  let g := h - inject_Z j in
  let a := nth_clamp xs (Z.to_nat j) in
  let b := nth_clamp xs (Z.to_nat j + 1) in
  a + (b - a) * g.

(** The quantile of the non-missing values of [fs]; NaN when there is none. *)
Definition nanquantile (fs : list float64) (q : Q) : float64 :=
  match merge_sort Qle (dropna fs) with
  | [] => NaN
  | xs => Real (interpolate xs q)
  end.

(** [Series.quantile(q)] with the default [interpolation='linear']: missing
    values are skipped, an empty series gives NaN. *)
Definition quantile (s : list cell) (q : Q) : outcome float64 :=
  if negb (Qle_bool 0 q && Qle_bool q 1) then Raise ValueError
  else match to_numeric s with
       | None => Raise TypeError
       | Some fs => Ok (nanquantile fs q)
       end.

(** ** Comparisons, masks and row selection *)

(** [series >= bound], element by element.  A string cell raises here
    whatever the bound; pandas lets the comparison with a NaN bound pass as
    [False].  The cell never compares a string cell: [quantile] has raised
    before. *)
Fixpoint series_ge (s : list cell) (bound : float64) : outcome (list bool) :=
  match s with
  | [] => Ok []
  | CFloat f :: s' =>
      match series_ge s' bound with
      | Ok m => Ok (fle bound f :: m)
      | Raise e => Raise e
      end
  | CStr _ :: _ => Raise TypeError
  end.

(** [series <= bound], element by element, with the same remark. *)
Fixpoint series_le (s : list cell) (bound : float64) : outcome (list bool) :=
  match s with
  | [] => Ok []
  | CFloat f :: s' =>
      match series_le s' bound with
      | Ok m => Ok (fle f bound :: m)
      | Raise e => Raise e
      end
  | CStr _ :: _ => Raise TypeError
  end.

(** [m1 & m2] on two boolean series over the same index. *)
Fixpoint mask_and (m1 m2 : list bool) : list bool :=
  match m1, m2 with
  | b1 :: m1', b2 :: m2' => (b1 && b2) :: mask_and m1' m2'
  | _, _ => []
  end.

Fixpoint select_rows {A : Type} (rs : list A) (mask : list bool) : list A :=
  match rs, mask with
  | r :: rs', b :: mask' =>
      if b then r :: select_rows rs' mask' else select_rows rs' mask'
  | _, _ => []
  end.

(** [df[mask]]: a new frame with the rows whose mask entry is [True].  The
    mask is taken by position and must have the frame's length; pandas
    aligns a boolean series on the index and accepts a longer one.  The
    masks of the cell come from the frame's own column and have its
    length. *)
Definition getitem_mask (df : DataFrame) (mask : list bool) : outcome DataFrame :=
  if decide (length mask = length (rows df))
  then Ok (mkDataFrame (columns df) (select_rows (rows df) mask))
  else Raise IndexingError.

(** ** The notebook namespace and the cell *)

(** The global variables of the cell.  [titanic] is bound by the dataset
    load that precedes the modelled statements; the others are unbound
    ([None]) until their assignment runs. *)
Record namespace : Type := mkNamespace {
  titanic : DataFrame;
  Q1 : option float64;
  Q3 : option float64;
  IQR : option float64;
  lower_bound : option float64;
  upper_bound : option float64;
  titanic_no_outliers : option DataFrame
}.

(** The namespace right after [titanic = sns.load_dataset('titanic')]. *)
Definition loaded (df : DataFrame) : namespace :=
  mkNamespace df None None None None None None.

(** Computations that read and write the namespace and may raise.  A raised
    exception keeps the namespace as it was at the point of the raise. *)
Definition M (A : Type) : Type := namespace → outcome A * namespace.

Definition ret {A : Type} (a : A) : M A := λ ns, (Ok a, ns).

Definition bind {A B : Type} (m : M A) (k : A → M B) : M B :=
  λ ns, match m ns with
        | (Ok a, ns') => k a ns'
        | (Raise e, ns') => (Raise e, ns')
        end.

Notation "'let*' x ':=' m 'in' k" := (bind m (λ x, k))
  (at level 10, x name, m at level 100, k at level 200, only parsing).
Notation "m ';;' k" := (bind m (λ _, k))
  (at level 100, k at level 200, right associativity, only parsing).

(** Lifting of a pure primitive that may raise. *)
Definition lift {A : Type} (o : outcome A) : M A := λ ns, (o, ns).

(** Reading a variable: [NameError] when it is unbound. *)
Definition read {A : Type} (name : string) (var : namespace → option A) : M A :=
  λ ns, match var ns with
        | Some v => (Ok v, ns)
        | None => (Raise (NameError name), ns)
        end.

Definition read_titanic : M DataFrame := λ ns, (Ok (titanic ns), ns).

Definition set_Q1 (v : float64) : M unit := λ ns,
  (Ok (), mkNamespace (titanic ns) (Some v) (Q3 ns) (IQR ns)
            (lower_bound ns) (upper_bound ns) (titanic_no_outliers ns)).
Definition set_Q3 (v : float64) : M unit := λ ns,
  (Ok (), mkNamespace (titanic ns) (Q1 ns) (Some v) (IQR ns)
            (lower_bound ns) (upper_bound ns) (titanic_no_outliers ns)).
Definition set_IQR (v : float64) : M unit := λ ns,
  (Ok (), mkNamespace (titanic ns) (Q1 ns) (Q3 ns) (Some v)
            (lower_bound ns) (upper_bound ns) (titanic_no_outliers ns)).
Definition set_lower_bound (v : float64) : M unit := λ ns,
  (Ok (), mkNamespace (titanic ns) (Q1 ns) (Q3 ns) (IQR ns)
            (Some v) (upper_bound ns) (titanic_no_outliers ns)).
Definition set_upper_bound (v : float64) : M unit := λ ns,
  (Ok (), mkNamespace (titanic ns) (Q1 ns) (Q3 ns) (IQR ns)
            (lower_bound ns) (Some v) (titanic_no_outliers ns)).
Definition set_titanic_no_outliers (v : DataFrame) : M unit := λ ns,
  (Ok (), mkNamespace (titanic ns) (Q1 ns) (Q3 ns) (IQR ns)
            (lower_bound ns) (upper_bound ns) (Some v)).

Section Cell.
Variable col : string.

(** [Q1 = titanic[col].quantile(0.25)] *)
Definition assign_Q1 : M unit :=
  let* df := read_titanic in
  let* s := lift (getitem df col) in
  let* v := lift (quantile s (1 # 4)) in
  set_Q1 v.

(** [Q3 = titanic[col].quantile(0.75)] *)
Definition assign_Q3 : M unit :=
  let* df := read_titanic in
  let* s := lift (getitem df col) in
  let* v := lift (quantile s (3 # 4)) in
  set_Q3 v.

(** [IQR = Q3 - Q1] *)
Definition assign_IQR : M unit :=
  let* q3 := read "Q3" Q3 in
  let* q1 := read "Q1" Q1 in
  set_IQR (fsub q3 q1).

(** [lower_bound = Q1 - 1.5 * IQR] *)
Definition assign_lower_bound : M unit :=
  let* q1 := read "Q1" Q1 in
  let* iqr := read "IQR" IQR in
  set_lower_bound (fsub q1 (fmul (Real (3 # 2)) iqr)).

(** [upper_bound = Q3 + 1.5 * IQR] *)
Definition assign_upper_bound : M unit :=
  let* q3 := read "Q3" Q3 in
  let* iqr := read "IQR" IQR in
  set_upper_bound (fadd q3 (fmul (Real (3 # 2)) iqr)).

(** [titanic_no_outliers =
      titanic[(titanic[col] >= lower_bound) & (titanic[col] <= upper_bound)]] *)
Definition assign_titanic_no_outliers : M unit :=
  let* df := read_titanic in
  let* df1 := read_titanic in
  let* s1 := lift (getitem df1 col) in
  let* lo := read "lower_bound" lower_bound in
  let* m1 := lift (series_ge s1 lo) in
  let* df2 := read_titanic in
  let* s2 := lift (getitem df2 col) in
  let* hi := read "upper_bound" upper_bound in
  let* m2 := lift (series_le s2 hi) in
  let* out := lift (getitem_mask df (mask_and m1 m2)) in
  set_titanic_no_outliers out.

(** The statements of the cell, in order. *)
Definition cell_body : M unit :=
  assign_Q1 ;; assign_Q3 ;; assign_IQR ;; assign_lower_bound ;;
  assign_upper_bound ;; assign_titanic_no_outliers.

(** Running the cell on a freshly loaded table. *)
Definition run (df : DataFrame) : outcome unit * namespace :=
  cell_body (loaded df).

(** The filtered table the cell leaves behind, or the exception. *)
Definition outlier_filter (df : DataFrame) : outcome DataFrame :=
  match run df with
  | (Ok _, ns) =>
      match titanic_no_outliers ns with
      | Some out => Ok out
      | None => Raise (NameError "titanic_no_outliers")
      end
  | (Raise e, _) => Raise e
  end.
End Cell.

(** The cell of the notebook filters on ['age']. *)
Definition notebook_cell : DataFrame → outcome unit * namespace := run "age".

(** ** Vocabulary for the statements *)

(** The target column of a table, as the cell reads it. *)
Definition series (col : string) (df : DataFrame) : list cell :=
  cell_at col <$> rows df.

(** The row holds a number [v] in [col] with [lo <= v <= hi]; false when the
    cell is missing or a bound is NaN. *)
Definition in_bounds (col : string) (lo hi : float64)
    (r : gmap string cell) : Prop :=
  match cell_at col r, lo, hi with
  | CFloat (Real v), Real l, Real h => l <= v ∧ v <= h
  | _, _, _ => False
  end.

#[global] Instance in_bounds_dec col lo hi r : Decision (in_bounds col lo hi r).
Proof.
  unfold in_bounds.
  destruct (cell_at col r) as [[v|]|]; destruct lo, hi; apply _.
Defined.

(** The row holds a missing value in [col]. *)
Definition is_missing (col : string) (r : gmap string cell) : Prop :=
  match cell_at col r with
  | CFloat NaN => True
  | _ => False
  end.

#[global] Instance is_missing_dec col r : Decision (is_missing col r).
Proof. unfold is_missing. destruct (cell_at col r) as [[v|]|]; apply _. Defined.

(** The table without the rows that miss a value in [col]. *)
Definition drop_missing (col : string) (df : DataFrame) : DataFrame :=
  mkDataFrame (columns df) (filter (λ r, ¬ is_missing col r) (rows df)).

(** The row filter alone, with the bounds given. *)
Definition row_filter (col : string) (lo hi : float64)
    (df : DataFrame) : DataFrame :=
  mkDataFrame (columns df) (filter (in_bounds col lo hi) (rows df)).

(** The bounds as the third to fifth statements derive them. *)
Definition iqr_of (q1 q3 : float64) : float64 := fsub q3 q1.
Definition lower_of (q1 q3 : float64) : float64 :=
  fsub q1 (fmul (Real (3 # 2)) (iqr_of q1 q3)).
Definition upper_of (q1 q3 : float64) : float64 :=
  fadd q3 (fmul (Real (3 # 2)) (iqr_of q1 q3)).

(** The namespace after a complete run over a numeric column [fs]. *)
Definition final (col : string) (df : DataFrame) (fs : list float64) : namespace :=
  let q1 := nanquantile fs (1 # 4) in
  let q3 := nanquantile fs (3 # 4) in
  mkNamespace df (Some q1) (Some q3) (Some (iqr_of q1 q3))
    (Some (lower_of q1 q3)) (Some (upper_of q1 q3))
    (Some (row_filter col (lower_of q1 q3) (upper_of q1 q3) df)).

(** The namespace after [titanic = titanic_no_outliers], with [out] the
    table that variable holds. *)
Definition rebind_titanic (out : DataFrame) (ns : namespace) : namespace :=
  mkNamespace out (Q1 ns) (Q3 ns) (IQR ns) (lower_bound ns) (upper_bound ns)
    (titanic_no_outliers ns).

(** ** The display statement *)

(** [df.head()]: a new frame with the first five rows. *)
Definition head (df : DataFrame) : DataFrame :=
  mkDataFrame (columns df) (take 5 (rows df)).

(** [print(titanic_no_outliers.head())]: the table handed to [print]. *)
Definition display : M DataFrame :=
  let* out := read "titanic_no_outliers" titanic_no_outliers in
  lift (Ok (head out)).

(** The whole cell after the load: the six assignments, then the display. *)
Definition cell_and_display (col : string) : M DataFrame :=
  cell_body col ;; display.

(** Two floats hold the same number, or are both NaN. *)
Definition same_float (a b : float64) : Prop :=
  match a, b with
  | Real x, Real y => x == y
  | NaN, NaN => True
  | _, _ => False
  end.

(** ** The numeric path in binary64 *)

(** The arithmetic of the cell on IEEE 754 binary64 numbers, with rounding
    to nearest even, overflow to infinity and NaN, as the Standard Library
    specifies them.  It takes the target column as a list of floats (a
    missing value is NaN) and gives the five numbers of the cell and the
    values the mask keeps.  [quantile] follows the linear method of the
    array library pandas delegates to: the order statistics around the
    virtual index [(n - 1) * q] are blended as [a + (b - a) * t], and as
    [b - (b - a) * (1 - t)] when [t >= 0.5]. *)
Module Binary64.

Definition float : Type := spec_float.

(** The float nearest to [m * 2 ^ e]. *)
Definition b64 (m e : Z) : float := binary_normalize 53 1024 m e false.

Definition of_Z (z : Z) : float := b64 z 0.

Definition add : float → float → float := SFadd 53 1024.
Definition sub : float → float → float := SFsub 53 1024.
Definition mul : float → float → float := SFmul 53 1024.
Definition leb : float → float → bool := SFleb.

Definition is_nan (x : float) : bool :=
  match x with S754_nan => true | _ => false end.

Fixpoint dropna (xs : list float) : list float :=
  match xs with
  | [] => []
  | x :: xs' => if is_nan x then dropna xs' else x :: dropna xs'
  end.

Fixpoint insert_sorted (x : float) (xs : list float) : list float :=
  match xs with
  | [] => [x]
  | y :: ys => if leb x y then x :: y :: ys else y :: insert_sorted x ys
  end.

Fixpoint sort (xs : list float) : list float :=
  match xs with
  | [] => []
  | x :: xs' => insert_sorted x (sort xs')
  end.

Definition lerp (a b t : float) : float :=
  let d := sub b a in
  if leb (b64 1 (-1)) t then sub b (mul d (sub (of_Z 1) t))
  else add a (mul d t).

(** [Series.quantile(k / 4)].  The virtual index [(n - 1) * k / 4] is split
    on naturals into its floor and its fraction, a multiple of a quarter;
    below [2 ^ 50] rows the float computation gives the same two. *)
Definition quantile (xs : list float) (k : nat) : float :=
  match sort (dropna xs) with
  | [] => S754_nan
  | (x0 :: _) as s =>
      let n := length s in
      let h := (k * (n - 1))%nat in
      let j := (h / 4)%nat in
      let t := b64 (Z.of_nat (h mod 4)) (-2) in
      lerp (nth j s x0) (nth (Nat.min (j + 1) (n - 1)) s x0) t
  end.

Record run : Type := mkRun {
  Q1 : float;
  Q3 : float;
  IQR : float;
  lower_bound : float;
  upper_bound : float;
  kept : list float
}.

Fixpoint keep (lo hi : float) (xs : list float) : list float :=
  match xs with
  | [] => []
  | x :: xs' =>
      if leb lo x && leb x hi then x :: keep lo hi xs' else keep lo hi xs'
  end.

(** The statements of the cell on the column [xs]. *)
Definition cell (xs : list float) : run :=
  let q1 := quantile xs 1 in
  let q3 := quantile xs 3 in
  let iqr := sub q3 q1 in
  let lo := sub q1 (mul (b64 3 (-1)) iqr) in
  let hi := add q3 (mul (b64 3 (-1)) iqr) in
  mkRun q1 q3 iqr lo hi (keep lo hi xs).

End Binary64.

(** ** The cell over an object store *)

(** Python variables hold references.  Here the tables and series the
    cell touches are objects in a store, and the pandas operations of the
    cell are written with what they do to it: [df[col]] makes a series that
    is a view of the table's column, a comparison and [&] make a new boolean
    series, [df[mask]] makes a new table with its own copy of the selected
    rows, and [quantile] only reads.  The floats are immutable values. *)
Module Store.

Inductive object : Type :=
  | Frame (df : DataFrame)
  | Column (frame : nat) (col : string)
  | Mask (m : list bool).

Record environ : Type := mkEnviron {
  titanic : nat;
  Q1 : option float64;
  Q3 : option float64;
  IQR : option float64;
  lower_bound : option float64;
  upper_bound : option float64;
  titanic_no_outliers : option nat
}.

Record state : Type := mkState {
  objects : gmap nat object;
  env : environ
}.

Definition H (A : Type) : Type := state → outcome A * state.

Definition bind {A B : Type} (m : H A) (k : A → H B) : H B :=
  λ s, match m s with
       | (Ok a, s') => k a s'
       | (Raise e, s') => (Raise e, s')
       end.

#[local] Notation "'do*' x ':=' m 'in' k" := (bind m (λ x, k))
  (at level 10, x name, m at level 100, k at level 200, only parsing).
#[local] Notation "m '>>' k" := (bind m (λ _, k))
  (at level 100, k at level 200, right associativity, only parsing).

Definition lift {A : Type} (o : outcome A) : H A := λ s, (o, s).

Definition read {A : Type} (name : string) (var : environ → option A) : H A :=
  λ s, match var (env s) with
       | Some v => (Ok v, s)
       | None => (Raise (NameError name), s)
       end.

Definition read_titanic : H nat := λ s, (Ok (titanic (env s)), s).

Definition update (f : environ → environ) : H unit :=
  λ s, (Ok (), mkState (objects s) (f (env s))).

Definition set_Q1 (v : float64) (e : environ) : environ :=
  mkEnviron (titanic e) (Some v) (Q3 e) (IQR e) (lower_bound e)
    (upper_bound e) (titanic_no_outliers e).
Definition set_Q3 (v : float64) (e : environ) : environ :=
  mkEnviron (titanic e) (Q1 e) (Some v) (IQR e) (lower_bound e)
    (upper_bound e) (titanic_no_outliers e).
Definition set_IQR (v : float64) (e : environ) : environ :=
  mkEnviron (titanic e) (Q1 e) (Q3 e) (Some v) (lower_bound e)
    (upper_bound e) (titanic_no_outliers e).
Definition set_lower_bound (v : float64) (e : environ) : environ :=
  mkEnviron (titanic e) (Q1 e) (Q3 e) (IQR e) (Some v)
    (upper_bound e) (titanic_no_outliers e).
Definition set_upper_bound (v : float64) (e : environ) : environ :=
  mkEnviron (titanic e) (Q1 e) (Q3 e) (IQR e) (lower_bound e)
    (Some v) (titanic_no_outliers e).
Definition set_titanic_no_outliers (r : nat) (e : environ) : environ :=
  mkEnviron (titanic e) (Q1 e) (Q3 e) (IQR e) (lower_bound e)
    (upper_bound e) (Some r).

(** A new object, at a reference no object of the store has. *)
Definition alloc (o : object) : H nat :=
  λ s, let r := fresh (dom (objects s)) in
       (Ok r, mkState (<[r := o]> (objects s)) (env s)).

Definition deref_frame (r : nat) : H DataFrame :=
  λ s, match objects s !! r with
       | Some (Frame df) => (Ok df, s)
       | _ => (Raise TypeError, s)
       end.

(** The data of a series: a view reads the column of its table as the
    table is now. *)
Definition deref_series (r : nat) : H (list cell) :=
  λ s, match objects s !! r with
       | Some (Column fr col) =>
           match objects s !! fr with
           | Some (Frame df) => (getitem df col, s)
           | _ => (Raise TypeError, s)
           end
       | _ => (Raise TypeError, s)
       end.

Definition deref_mask (r : nat) : H (list bool) :=
  λ s, match objects s !! r with
       | Some (Mask m) => (Ok m, s)
       | _ => (Raise TypeError, s)
       end.

(** [df[col]] *)
Definition frame_getitem (r : nat) (col : string) : H nat :=
  do* df := deref_frame r in
  do* _ := lift (getitem df col) in
  alloc (Column r col).

(** [s.quantile(q)] *)
Definition series_quantile (r : nat) (q : Q) : H float64 :=
  do* s := deref_series r in
  lift (quantile s q).

(** [s >= bound] *)
Definition series_ge_bound (r : nat) (bound : float64) : H nat :=
  do* s := deref_series r in
  do* m := lift (series_ge s bound) in
  alloc (Mask m).

(** [s <= bound] *)
Definition series_le_bound (r : nat) (bound : float64) : H nat :=
  do* s := deref_series r in
  do* m := lift (series_le s bound) in
  alloc (Mask m).

(** [m1 & m2] *)
Definition masks_and (r1 r2 : nat) : H nat :=
  do* m1 := deref_mask r1 in
  do* m2 := deref_mask r2 in
  alloc (Mask (mask_and m1 m2)).

(** [df[mask]] *)
Definition frame_getitem_mask (r rm : nat) : H nat :=
  do* df := deref_frame r in
  do* m := deref_mask rm in
  do* out := lift (getitem_mask df m) in
  alloc (Frame out).

Section Cell.
Variable col : string.

(** [Q1 = titanic[col].quantile(0.25)] *)
Definition assign_Q1 : H unit :=
  do* df := read_titanic in
  do* s := frame_getitem df col in
  do* v := series_quantile s (1 # 4) in
  update (set_Q1 v).

(** [Q3 = titanic[col].quantile(0.75)] *)
Definition assign_Q3 : H unit :=
  do* df := read_titanic in
  do* s := frame_getitem df col in
  do* v := series_quantile s (3 # 4) in
  update (set_Q3 v).

(** [IQR = Q3 - Q1] *)
Definition assign_IQR : H unit :=
  do* q3 := read "Q3" Q3 in
  do* q1 := read "Q1" Q1 in
  update (set_IQR (fsub q3 q1)).

(** [lower_bound = Q1 - 1.5 * IQR] *)
Definition assign_lower_bound : H unit :=
  do* q1 := read "Q1" Q1 in
  do* iqr := read "IQR" IQR in
  update (set_lower_bound (fsub q1 (fmul (Real (3 # 2)) iqr))).

(** [upper_bound = Q3 + 1.5 * IQR] *)
Definition assign_upper_bound : H unit :=
  do* q3 := read "Q3" Q3 in
  do* iqr := read "IQR" IQR in
  update (set_upper_bound (fadd q3 (fmul (Real (3 # 2)) iqr))).

(** [titanic_no_outliers =
      titanic[(titanic[col] >= lower_bound) & (titanic[col] <= upper_bound)]] *)
Definition assign_titanic_no_outliers : H unit :=
  do* df := read_titanic in
  do* df1 := read_titanic in
  do* s1 := frame_getitem df1 col in
  do* lo := read "lower_bound" lower_bound in
  do* m1 := series_ge_bound s1 lo in
  do* df2 := read_titanic in
  do* s2 := frame_getitem df2 col in
  do* hi := read "upper_bound" upper_bound in
  do* m2 := series_le_bound s2 hi in
  do* m := masks_and m1 m2 in
  do* out := frame_getitem_mask df m in
  update (set_titanic_no_outliers out).

Definition cell_body : H unit :=
  assign_Q1 >> assign_Q3 >> assign_IQR >> assign_lower_bound >>
  assign_upper_bound >> assign_titanic_no_outliers.
End Cell.

(** The store right after the load: the table is the only object. *)
Definition loaded (df : DataFrame) : state :=
  mkState {[ 0%nat := Frame df ]}
    (mkEnviron 0 None None None None None None).

End Store.

(** ** Sample tables *)

(** A row in the shape of the notebook's printed head, cut down to two of
    its columns. *)
Definition passenger (sex : string) (age : float64) : gmap string cell :=
  {[ "sex" := CStr sex; "age" := CFloat age ]}.

(** A one-column table of known ages. *)
Definition of_ages (ages : list Z) : DataFrame :=
  mkDataFrame ["age"]
    ((λ a, {[ "age" := CFloat (Real (inject_Z a)) ]}) <$> ages).

Definition sample_age_values : list float64 :=
  [Real 22; Real 38; Real 26; Real 35; Real 35; Real 2; Real 80].

Definition sample_ages : DataFrame := of_ages [22; 38; 26; 35; 35; 2; 80]%Z.

Definition skewed : DataFrame := of_ages [1; 2; 3; 4; 8; 100]%Z.
Definition skewed_once : DataFrame := of_ages [1; 2; 3; 4; 8]%Z.
Definition skewed_twice : DataFrame := of_ages [1; 2; 3; 4]%Z.

Definition constant_with_spike : DataFrame := of_ages [7; 7; 1007; 7; 7]%Z.

Definition head_with_gap : DataFrame :=
  mkDataFrame ["sex"; "age"]
    [passenger "male" (Real 22); passenger "female" (Real 38);
     passenger "female" NaN; passenger "female" (Real 35);
     passenger "male" (Real 35); passenger "male" (Real 54)].

Definition all_missing : DataFrame :=
  mkDataFrame ["sex"; "age"]
    [passenger "male" NaN; passenger "female" NaN].


(** ** Properties *)

(** *** Masks and row selection against [filter] *)

Lemma series_ge_numeric s fs lo :
  to_numeric s = Some fs → series_ge s lo = Ok (fle lo <$> fs).
Proof.
  revert fs. induction s as [|[f|str] s IH]; intros fs Hs; simpl in *.
  - by inversion Hs.
  - destruct (to_numeric s) as [fs'|]; [|done].
    inversion Hs; subst. by rewrite (IH fs').
  - done.
Qed.

Lemma series_le_numeric s fs hi :
  to_numeric s = Some fs → series_le s hi = Ok ((λ f, fle f hi) <$> fs).
Proof.
  revert fs. induction s as [|[f|str] s IH]; intros fs Hs; simpl in *.
  - by inversion Hs.
  - destruct (to_numeric s) as [fs'|]; [|done].
    inversion Hs; subst. by rewrite (IH fs').
  - done.
Qed.

Lemma to_numeric_length s fs : to_numeric s = Some fs → length fs = length s.
Proof.
  revert fs. induction s as [|[f|str] s IH]; intros fs Hs; simpl in *.
  - by inversion Hs.
  - destruct (to_numeric s) as [fs'|]; [|done].
    inversion Hs; subst. simpl. f_equal. by apply IH.
  - done.
Qed.

Lemma mask_and_length fs lo hi :
  length (mask_and (fle lo <$> fs) ((λ f, fle f hi) <$> fs)) = length fs.
Proof. induction fs as [|f fs IH]; simpl; [done | f_equal; exact IH]. Qed.

Lemma fle_in_bounds col lo hi r f :
  cell_at col r = CFloat f →
  fle lo f && fle f hi = true ↔ in_bounds col lo hi r.
Proof.
  intros Hc. unfold in_bounds. rewrite Hc.
  destruct f as [v|], lo as [l|], hi as [h|]; simpl;
    rewrite ?andb_true_iff, ?Qle_bool_iff; try tauto;
    try (split; [intros [? ?]; discriminate | tauto]);
    try (split; [discriminate | tauto]).
Qed.
Lemma select_rows_filter col lo hi (rs : list (gmap string cell)) fs :
  to_numeric (cell_at col <$> rs) = Some fs →
  select_rows rs (mask_and (fle lo <$> fs) ((λ f, fle f hi) <$> fs))
  = filter (in_bounds col lo hi) rs.
Proof.
  revert fs. induction rs as [|r rs IH]; intros fs Hs.
  - done.
  - rewrite fmap_cons in Hs. cbn [to_numeric] in Hs.
    destruct (cell_at col r) as [f|str] eqn:Hc; [|done].
    destruct (to_numeric (cell_at col <$> rs)) as [fs'|]; [|done].
    cbn in Hs. inversion Hs; subst. rewrite !fmap_cons.
    cbn [mask_and select_rows].
    rewrite (IH fs' eq_refl).
    pose proof (fle_in_bounds col lo hi r f Hc) as Hb.
    rewrite filter_cons.
    destruct (fle lo f && fle f hi);
      destruct (decide (in_bounds col lo hi r)) as [Hin|Hout]; try done.
    + destruct Hout. by apply Hb.
    + apply Hb in Hin. discriminate.
Qed.

(** *** Stepping through the cell *)

Lemma bind_ok {A B} (m : M A) (k : A → M B) ns a ns' :
  m ns = (Ok a, ns') → bind m k ns = k a ns'.
Proof. intros H. unfold bind. by rewrite H. Qed.

Lemma bind_raise {A B} (m : M A) (k : A → M B) ns e ns' :
  m ns = (Raise e, ns') → bind m k ns = (Raise e, ns').
Proof. intros H. unfold bind. by rewrite H. Qed.

Lemma getitem_present df col :
  col ∈ columns df → getitem df col = Ok (series col df).
Proof. intros H. unfold getitem. by rewrite decide_True. Qed.

Lemma getitem_absent df col :
  col ∉ columns df → getitem df col = Raise (KeyError col).
Proof. intros H. unfold getitem. by rewrite decide_False. Qed.

Lemma quantile_numeric s fs q :
  0 <= q <= 1 → to_numeric s = Some fs → quantile s q = Ok (nanquantile fs q).
Proof.
  intros [H0 H1] Hs. unfold quantile.
  apply Qle_bool_iff in H0, H1. by rewrite H0, H1, Hs.
Qed.

Lemma quantile_non_numeric s q :
  0 <= q <= 1 → to_numeric s = None → quantile s q = Raise TypeError.
Proof.
  intros [H0 H1] Hs. unfold quantile.
  apply Qle_bool_iff in H0, H1. by rewrite H0, H1, Hs.
Qed.

Lemma quarter_in_unit : 0 <= 1 # 4 <= 1.
Proof. split; by apply Qle_bool_iff. Qed.

Lemma three_quarters_in_unit : 0 <= 3 # 4 <= 1.
Proof. split; by apply Qle_bool_iff. Qed.

Lemma assign_Q1_key_error col ns :
  col ∉ columns (titanic ns) → assign_Q1 col ns = (Raise (KeyError col), ns).
Proof.
  intros Hc. unfold assign_Q1, bind, read_titanic, lift.
  by rewrite getitem_absent.
Qed.

Lemma assign_Q1_type_error col ns :
  col ∈ columns (titanic ns) → to_numeric (series col (titanic ns)) = None →
  assign_Q1 col ns = (Raise TypeError, ns).
Proof.
  intros Hc Hs. unfold assign_Q1, bind, read_titanic, lift.
  rewrite getitem_present by done.
  by rewrite (quantile_non_numeric _ _ quarter_in_unit Hs).
Qed.

Ltac step_cell :=
  cbn [titanic Q1 Q3 IQR lower_bound upper_bound titanic_no_outliers
       set_Q1 set_Q3 set_IQR set_lower_bound set_upper_bound
       set_titanic_no_outliers rows columns].

Lemma run_key_error col df :
  col ∉ columns df → run col df = (Raise (KeyError col), loaded df).
Proof.
  intros Hc. unfold run, cell_body.
  by apply bind_raise, assign_Q1_key_error.
Qed.

Lemma run_type_error col df :
  col ∈ columns df → to_numeric (series col df) = None →
  run col df = (Raise TypeError, loaded df).
Proof.
  intros Hc Hs. unfold run, cell_body.
  by apply bind_raise, assign_Q1_type_error.
Qed.

Lemma run_numeric col df fs :
  col ∈ columns df → to_numeric (series col df) = Some fs →
  run col df = (Ok (), final col df fs).
Proof.
  intros Hc Hs.
  unfold run, cell_body, assign_Q1, assign_Q3, assign_IQR, assign_lower_bound,
    assign_upper_bound, assign_titanic_no_outliers, bind, read_titanic, read,
    lift, loaded.
  step_cell.
  rewrite (getitem_present _ _ Hc).
  rewrite (quantile_numeric _ _ _ quarter_in_unit Hs).
  step_cell.
  rewrite (getitem_present _ _ Hc).
  rewrite (quantile_numeric _ _ _ three_quarters_in_unit Hs).
  step_cell.
  rewrite (getitem_present _ _ Hc).
  rewrite (series_ge_numeric _ fs) by done.
  rewrite (series_le_numeric _ fs) by done.
  unfold getitem_mask.
  rewrite mask_and_length, (to_numeric_length _ _ Hs).
  unfold series. rewrite length_fmap.
  rewrite decide_True by done.
  step_cell.
  rewrite (select_rows_filter col _ _ _ fs Hs). done.
Qed.


(** *** Order statistics and interpolation *)





Lemma fraction_bounds (h : Q) :
  0 <= h - inject_Z (Qfloor h) ∧ h - inject_Z (Qfloor h) <= 1.
Proof.
  pose proof (Qfloor_le h). pose proof (Qlt_floor h) as Hlt.
  rewrite inject_Z_plus in Hlt. change (inject_Z 1) with 1 in Hlt.
  split; lra.
Qed.



Lemma merge_sort_nonempty (xs : list Q) : xs ≠ [] → merge_sort Qle xs ≠ [].
Proof.
  intros Hne Hnil. apply Hne.
  apply Permutation_nil_r. rewrite <- Hnil.
  symmetry. apply merge_sort_Permutation.
Qed.

Lemma nanquantile_real (fs : list float64) (q : Q) :
  dropna fs ≠ [] →
  nanquantile fs q = Real (interpolate (merge_sort Qle (dropna fs)) q).
Proof.
  intros Hne. unfold nanquantile.
  pose proof (merge_sort_nonempty _ Hne).
  by destruct (merge_sort Qle (dropna fs)).
Qed.

Lemma nanquantile_empty (fs : list float64) (q : Q) :
  dropna fs = [] → nanquantile fs q = NaN.
Proof. intros Hnil. unfold nanquantile. by rewrite Hnil. Qed.


(** *** Inversion of a successful run *)

Lemma run_inv col df ns :
  run col df = (Ok (), ns) →
  ∃ fs, col ∈ columns df ∧ to_numeric (series col df) = Some fs
        ∧ ns = final col df fs.
Proof.
  intros Hrun.
  destruct (decide (col ∈ columns df)) as [Hc|Hc].
  - destruct (to_numeric (series col df)) as [fs|] eqn:Hs.
    + rewrite (run_numeric col df fs Hc Hs) in Hrun.
      exists fs. by inversion Hrun.
    + rewrite (run_type_error col df Hc Hs) in Hrun. discriminate.
  - rewrite (run_key_error col df Hc) in Hrun. discriminate.
Qed.

Lemma outlier_filter_numeric col df fs :
  col ∈ columns df → to_numeric (series col df) = Some fs →
  outlier_filter col df
  = Ok (row_filter col (lower_of (nanquantile fs (1 # 4)) (nanquantile fs (3 # 4)))
          (upper_of (nanquantile fs (1 # 4)) (nanquantile fs (3 # 4))) df).
Proof.
  intros Hc Hs. unfold outlier_filter. by rewrite (run_numeric col df fs Hc Hs).
Qed.

Lemma outlier_filter_inv col df out :
  outlier_filter col df = Ok out →
  ∃ lo hi, out = row_filter col lo hi df.
Proof.
  unfold outlier_filter. intros Hout.
  destruct (run col df) as [[[]|e] ns] eqn:Hrun; [|discriminate].
  apply run_inv in Hrun as (fs & Hc & Hs & ->).
  simpl in Hout. inversion Hout. eauto.
Qed.

Lemma in_bounds_spec col lo hi r :
  in_bounds col lo hi r ↔
  ∃ v l h, cell_at col r = CFloat (Real v) ∧ lo = Real l ∧ hi = Real h
           ∧ l <= v ∧ v <= h.
Proof.
  unfold in_bounds. split.
  - destruct (cell_at col r) as [[v|]|]; destruct lo as [l|], hi as [h|];
      try done.
    intros [? ?]. by exists v, l, h.
  - intros (v & l & h & -> & -> & -> & ? & ?). done.
Qed.

(** C5.  After a successful run with bounds [lo] and [hi], the output holds
    exactly the input rows whose value [v] in the target column is a number
    with [lo <= v <= hi], both ends included, in the input's order; a row
    with a number in the column is dropped if and only if that number is
    strictly below [lo] or strictly above [hi]. *)
Theorem inclusive_range_filter col df ns lo hi out :
  run col df = (Ok (), ns) →
  lower_bound ns = Some lo → upper_bound ns = Some hi →
  titanic_no_outliers ns = Some out →
  rows out = filter (in_bounds col lo hi) (rows df)
  ∧ (∀ r, r ∈ rows out ↔
          r ∈ rows df ∧
          ∃ v l h, cell_at col r = CFloat (Real v) ∧ lo = Real l ∧ hi = Real h
                   ∧ l <= v ∧ v <= h)
  ∧ (∀ r v l h, r ∈ rows df → cell_at col r = CFloat (Real v) →
        lo = Real l → hi = Real h →
        (r ∉ rows out ↔ v < l ∨ h < v)).
Proof.
  intros Hrun Hlo Hhi Hout.
  apply run_inv in Hrun as (fs & Hc & Hs & ->).
  simpl in Hlo, Hhi, Hout. inversion Hlo; inversion Hhi; inversion Hout; subst.
  clear Hlo Hhi Hout. simpl rows.
  set (lo := lower_of _ _). set (hi := upper_of _ _).
  split; [done|]. split.
  - intros r. rewrite list_elem_of_filter, in_bounds_spec. tauto.
  - intros r v l h Hr Hv Hl Hh.
    rewrite list_elem_of_filter, in_bounds_spec. split.
    + intros Hnot. destruct (Qlt_le_dec v l) as [?|Hlv]; [by left|].
      destruct (Qlt_le_dec h v) as [?|Hvh]; [by right|].
      destruct Hnot. split; [|done]. by exists v, l, h.
    + intros Hout [(v' & l' & h' & Hv' & Hl' & Hh' & ? & ?) _].
      rewrite Hv in Hv'. rewrite Hl in Hl'. rewrite Hh in Hh'.
      inversion Hv'; inversion Hl'; inversion Hh'; subst.
      destruct Hout; lra.
Qed.

Lemma inclusive_range_filter_witness :
  ∃ out, titanic_no_outliers (snd (run "age" head_with_gap)) = Some out ∧
  rows out = filter (in_bounds "age" (Real (61 # 2)) (Real (85 # 2)))
               (rows head_with_gap).
Proof.
  eexists. split; [reflexivity|].
  pose proof (inclusive_range_filter "age" head_with_gap
    (snd (run "age" head_with_gap)) _ _ _ eq_refl eq_refl eq_refl eq_refl)
    as [H _].
  rewrite H. vm_compute. reflexivity.
Defined.

(** C6.  When the filter succeeds, the output has the input's columns and
    its rows are a subsequence of the input's rows: no more rows than the
    input, every output row is an input row unchanged, and the order of the
    survivors is the input's. *)
Theorem output_is_subsequence col df out :
  outlier_filter col df = Ok out →
  columns out = columns df
  ∧ rows out `sublist_of` rows df
  ∧ (length (rows out) <= length (rows df))%nat
  ∧ (∀ r, r ∈ rows out → r ∈ rows df).
Proof.
  intros Hout. apply outlier_filter_inv in Hout as (lo & hi & ->).
  simpl. split; [done|]. split; [apply sublist_filter|].
  split; [apply length_filter|].
  intros r Hr. apply list_elem_of_filter in Hr. tauto.
Qed.

Lemma output_is_subsequence_witness :
  ∃ out, outlier_filter "age" head_with_gap = Ok out
         ∧ rows out `sublist_of` rows head_with_gap
         ∧ (length (rows out) <= length (rows head_with_gap))%nat.
Proof.
  eexists. split; [reflexivity|].
  destruct (output_is_subsequence "age" head_with_gap _ eq_refl)
    as (_ & Hsub & Hlen & _).
  split; [exact Hsub | exact Hlen].
Defined.

Lemma filter_nan_bounds col hi (rs : list (gmap string cell)) :
  filter (in_bounds col NaN hi) rs = [].
Proof.
  induction rs as [|r rs IH]; [done|].
  rewrite filter_cons_False; [exact IH|].
  unfold in_bounds. destruct (cell_at col r) as [[?|]|], hi; simpl; tauto.
Qed.

Lemma all_missing_numeric col (rs : list (gmap string cell)) :
  Forall (is_missing col) rs →
  ∃ fs, to_numeric (cell_at col <$> rs) = Some fs ∧ dropna fs = [].
Proof.
  induction 1 as [|r rs Hr _ (fs & Hfs & Hnil)].
  - by exists [].
  - exists (NaN :: fs). rewrite fmap_cons. cbn [to_numeric].
    unfold is_missing in Hr.
    destruct (cell_at col r) as [[v|]|]; try done.
    by rewrite Hfs.
Qed.


Lemma run_all_missing col df :
  col ∈ columns df → Forall (is_missing col) (rows df) →
  run col df
  = (Ok (), mkNamespace df (Some NaN) (Some NaN) (Some NaN) (Some NaN)
              (Some NaN) (Some (mkDataFrame (columns df) []))).
Proof.
  intros Hc Hall.
  destruct (all_missing_numeric col (rows df) Hall) as (fs & Hs & Hnil).
  rewrite (run_numeric col df fs Hc Hs).
  unfold final. rewrite !(nanquantile_empty fs _ Hnil).
  unfold lower_of, upper_of, iqr_of, row_filter. simpl.
  by rewrite filter_nan_bounds.
Qed.

(** C10.  When every row misses its value in the target column (or the
    table has no row), the run raises nothing: both quartiles, the IQR and
    both bounds are NaN, no row passes the range test, and the result is the
    empty table with the input's columns. *)
Theorem empty_column_gives_empty_table col df :
  col ∈ columns df → Forall (is_missing col) (rows df) →
  fst (run col df) = Ok ()
  ∧ Q1 (snd (run col df)) = Some NaN
  ∧ Q3 (snd (run col df)) = Some NaN
  ∧ IQR (snd (run col df)) = Some NaN
  ∧ lower_bound (snd (run col df)) = Some NaN
  ∧ upper_bound (snd (run col df)) = Some NaN
  ∧ (∀ r, ¬ in_bounds col NaN NaN r)
  ∧ outlier_filter col df = Ok (mkDataFrame (columns df) []).
Proof.
  intros Hc Hall. unfold outlier_filter.
  rewrite (run_all_missing col df Hc Hall). simpl.
  repeat (split; [done|]). split; [|done].
  intros r. unfold in_bounds. destruct (cell_at col r) as [[v|]|]; tauto.
Qed.

Lemma empty_column_gives_empty_table_witness :
  fst (run "age" all_missing) = Ok ()
  ∧ lower_bound (snd (run "age" all_missing)) = Some NaN
  ∧ upper_bound (snd (run "age" all_missing)) = Some NaN
  ∧ outlier_filter "age" all_missing
    = Ok (mkDataFrame ["sex"; "age"]%string []).
Proof.
  destruct (empty_column_gives_empty_table "age" all_missing)
    as (Hok & _ & _ & _ & Hlo & Hhi & _ & Hout).
  - by apply (bool_decide_unpack _).
  - repeat constructor.
  - repeat split; assumption.
Defined.

(** *** Bound ordering *)

Lemma dropna_nonempty col (rs : list (gmap string cell)) fs r v :
  to_numeric (cell_at col <$> rs) = Some fs →
  r ∈ rs → cell_at col r = CFloat (Real v) → dropna fs ≠ [].
Proof.
  revert fs. induction rs as [|r0 rs IH]; intros fs Hs Hr Hv.
  - by apply elem_of_nil in Hr.
  - rewrite fmap_cons in Hs. cbn [to_numeric] in Hs.
    destruct (cell_at col r0) as [f|str] eqn:Hc; [|done].
    destruct (to_numeric (cell_at col <$> rs)) as [fs'|]; [|done].
    cbn in Hs. inversion Hs; subst. clear Hs.
    apply elem_of_cons in Hr as [->|Hr].
    + rewrite Hv in Hc. inversion Hc; subst. done.
    + specialize (IH fs' eq_refl Hr Hv).
      destruct f; simpl; [done | exact IH].
Qed.




(** On the sample ages the binary64 arithmetic gives the bounds 5.25 and
    55.25 and keeps the same five values as the exact arithmetic. *)
Lemma binary64_sample_ages :
  Binary64.lower_bound
    (Binary64.cell (Binary64.of_Z <$> [22; 38; 26; 35; 35; 2; 80]%Z))
  = Binary64.b64 21 (-2)
  ∧ Binary64.upper_bound
      (Binary64.cell (Binary64.of_Z <$> [22; 38; 26; 35; 35; 2; 80]%Z))
    = Binary64.b64 221 (-2)
  ∧ Binary64.kept
      (Binary64.cell (Binary64.of_Z <$> [22; 38; 26; 35; 35; 2; 80]%Z))
    = Binary64.of_Z <$> [22; 38; 26; 35; 35]%Z.
Proof. vm_compute. repeat split. Qed.


(** *** Failures *)

(** C3, amended.  An absent column raises [KeyError] and a column with a
    non-numeric cell raises [TypeError]; both are raised by the first
    statement, before any variable of the cell is bound, so the namespace
    is still the freshly loaded one and there is no partial result.  A
    column with no observation raises nothing. *)
Theorem failures_raised_by_first_statement col df :
  (col ∉ columns df → run col df = (Raise (KeyError col), loaded df))
  ∧ (col ∈ columns df → to_numeric (series col df) = None →
     run col df = (Raise TypeError, loaded df))
  ∧ (col ∈ columns df → Forall (is_missing col) (rows df) →
     fst (run col df) = Ok ()).
Proof.
  split; [apply run_key_error|]. split; [apply run_type_error|].
  intros Hc Hall.
  by rewrite (run_all_missing col df Hc Hall).
Qed.

Lemma failures_raised_by_first_statement_witness :
  run "fare" head_with_gap = (Raise (KeyError "fare"), loaded head_with_gap)
  ∧ run "sex" head_with_gap = (Raise TypeError, loaded head_with_gap)
  ∧ fst (run "age" all_missing) = Ok ().
Proof.
  split; [|split].
  - apply (failures_raised_by_first_statement "fare" head_with_gap).
    by apply (bool_decide_unpack _).
  - apply (failures_raised_by_first_statement "sex" head_with_gap).
    + by apply (bool_decide_unpack _).
    + reflexivity.
  - apply (failures_raised_by_first_statement "age" all_missing).
    + by apply (bool_decide_unpack _).
    + repeat constructor.
Defined.

(** The claim C3 fails on a column with no observation: the run ends
    normally, with NaN bounds and an empty table. *)
Lemma empty_column_does_not_fail :
  ¬ (∃ e ns, run "age" all_missing = (Raise e, ns))
  ∧ lower_bound (snd (run "age" all_missing)) = Some NaN
  ∧ upper_bound (snd (run "age" all_missing)) = Some NaN.
Proof.
  split; [|split; reflexivity].
  intros (e & ns & Hrun). vm_compute in Hrun. discriminate.
Qed.

(** *** The sample column of ages *)

Lemma in_bounds_real col l h r v :
  cell_at col r = CFloat (Real v) →
  in_bounds col (Real l) (Real h) r ↔ l <= v ∧ v <= h.
Proof. intros Hv. unfold in_bounds. by rewrite Hv. Qed.

(** C1, amended.  On any table whose ['age'] column is
    [22, 38, 26, 35, 35, 2, 80] the run succeeds with
    [lower_bound = 5.25] and [upper_bound = 55.25], and the output is the
    first five rows: the rows with age 80 and with age 2 are both
    dropped. *)
Theorem sample_ages_drops_both_ends df :
  "age" ∈ columns df →
  series "age" df = CFloat <$> sample_age_values →
  fst (run "age" df) = Ok ()
  ∧ (∃ lo hi, lower_bound (snd (run "age" df)) = Some (Real lo) ∧ lo == 21 # 4
              ∧ upper_bound (snd (run "age" df)) = Some (Real hi)
              ∧ hi == 221 # 4)
  ∧ titanic_no_outliers (snd (run "age" df))
    = Some (mkDataFrame (columns df) (take 5 (rows df))).
Proof.
  intros Hc Hser.
  assert (to_numeric (series "age" df) = Some sample_age_values) as Hs
    by (by rewrite Hser).
  rewrite (run_numeric "age" df _ Hc Hs). unfold final.
  replace (nanquantile sample_age_values (1 # 4)) with (Real (96 # 4))
    by (by vm_compute).
  replace (nanquantile sample_age_values (3 # 4)) with (Real (146 # 4))
    by (by vm_compute).
  cbn [fst snd lower_bound upper_bound titanic_no_outliers lower_of upper_of
       iqr_of fsub fadd fmul].
  split; [done|]. split.
  { eexists _, _. split; [reflexivity|]. split; [by vm_compute|].
    split; [reflexivity | by vm_compute]. }
  unfold row_filter, series in *. do 2 f_equal.
  destruct (rows df) as [|r0 [|r1 [|r2 [|r3 [|r4 [|r5 [|r6 [|r7 rs]]]]]]]];
    try discriminate.
  unfold sample_age_values in Hser. rewrite !fmap_cons in Hser.
  injection Hser as H0 H1 H2 H3 H4 H5 H6.
  rewrite !filter_cons.
  repeat match goal with
  | H : cell_at "age" ?r = CFloat (Real _) |- context [decide (in_bounds _ _ _ ?r)] =>
      first [ rewrite decide_True
                by (apply (in_bounds_real _ _ _ _ _ H); split; by vm_compute)
            | rewrite decide_False
                by (rewrite (in_bounds_real _ _ _ _ _ H);
                    intros [Hl Hh]; vm_compute in Hl, Hh; tauto) ];
      clear H
  end.
  done.
Qed.

Lemma sample_ages_drops_both_ends_witness :
  titanic_no_outliers (snd (run "age" sample_ages))
  = Some (of_ages [22; 38; 26; 35; 35]%Z).
Proof.
  destruct (sample_ages_drops_both_ends sample_ages) as (_ & _ & Hout).
  - by apply (bool_decide_unpack _).
  - reflexivity.
  - rewrite Hout. reflexivity.
Defined.

(** The claim C1 fails: the row with age 2 is below the lower bound 5.25
    and is not retained. *)
Lemma sample_ages_age_2_not_retained :
  ¬ (∃ out, outlier_filter "age" sample_ages = Ok out
            ∧ (∀ r, r ∈ rows out → cell_at "age" r ≠ CFloat (Real 80))
            ∧ (∃ r, r ∈ rows out ∧ cell_at "age" r = CFloat (Real 2))).
Proof.
  intros (out & Hout & _ & r & Hr & Hv).
  assert (series "age" out
          = CFloat <$> [Real 22; Real 38; Real 26; Real 35; Real 35]) as Hser.
  { vm_compute in Hout. inversion Hout. reflexivity. }
  apply (list_elem_of_fmap_2 (cell_at "age")) in Hr.
  fold (series "age" out) in Hr. rewrite Hser, Hv in Hr.
  repeat (apply elem_of_cons in Hr as [Hr|Hr]; [discriminate|]).
  by apply elem_of_nil in Hr.
Qed.

(** *** Filtering twice *)

Lemma filter_twice {A} (P : A → Prop) `{!∀ x, Decision (P x)} (l : list A) :
  filter P (filter P l) = filter P l.
Proof.
  induction l as [|x l IH]; [done|].
  rewrite filter_cons. destruct (decide (P x)) as [Hx|Hx]; [|done].
  rewrite filter_cons_True by done. by rewrite IH.
Qed.

Lemma to_numeric_filter col (P : gmap string cell → Prop)
    `{!∀ r, Decision (P r)} (rs : list (gmap string cell)) fs :
  to_numeric (cell_at col <$> rs) = Some fs →
  ∃ fs', to_numeric (cell_at col <$> filter P rs) = Some fs'.
Proof.
  revert fs. induction rs as [|r rs IH]; intros fs Hs.
  - by exists [].
  - rewrite fmap_cons in Hs. cbn [to_numeric] in Hs.
    destruct (cell_at col r) as [f|str] eqn:Hc; [|done].
    destruct (to_numeric (cell_at col <$> rs)) as [fs0|]; [|done].
    destruct (IH fs0 eq_refl) as [fs' Hfs'].
    rewrite filter_cons. destruct (decide (P r)); [|by exists fs'].
    exists (f :: fs'). rewrite fmap_cons. cbn [to_numeric].
    by rewrite Hc, Hfs'.
Qed.

Lemma assign_filter_numeric col ns fs lo hi :
  col ∈ columns (titanic ns) →
  to_numeric (series col (titanic ns)) = Some fs →
  lower_bound ns = Some lo → upper_bound ns = Some hi →
  assign_titanic_no_outliers col ns
  = (Ok (), mkNamespace (titanic ns) (Q1 ns) (Q3 ns) (IQR ns)
              (lower_bound ns) (upper_bound ns)
              (Some (row_filter col lo hi (titanic ns)))).
Proof.
  intros Hc Hs Hlo Hhi.
  unfold assign_titanic_no_outliers, bind, read_titanic, read, lift.
  rewrite (getitem_present _ _ Hc), Hlo. cbv beta iota.
  rewrite (series_ge_numeric _ fs) by done. cbv beta iota.
  rewrite (getitem_present _ _ Hc), Hhi. cbv beta iota.
  rewrite (series_le_numeric _ fs) by done. cbv beta iota.
  unfold getitem_mask.
  rewrite mask_and_length, (to_numeric_length _ _ Hs).
  unfold series. rewrite length_fmap.
  rewrite decide_True by done.
  unfold set_titanic_no_outliers. rewrite Hlo, Hhi.
  by rewrite (select_rows_filter col _ _ _ fs Hs).
Qed.

(** C2, amended.  After a successful run, rebinding [titanic] to the
    output and running the filtering statement again, with the bounds of
    the first run still in place, succeeds and leaves the same table in
    [titanic_no_outliers]. *)
Theorem refilter_with_same_bounds col df ns out :
  run col df = (Ok (), ns) → titanic_no_outliers ns = Some out →
  fst (assign_titanic_no_outliers col (rebind_titanic out ns)) = Ok ()
  ∧ titanic_no_outliers
      (snd (assign_titanic_no_outliers col (rebind_titanic out ns)))
    = Some out.
Proof.
  intros Hrun Hout.
  apply run_inv in Hrun as (fs & Hc & Hs & ->).
  simpl in Hout. inversion Hout; subst; clear Hout.
  set (lo := lower_of _ _). set (hi := upper_of _ _).
  destruct (to_numeric_filter col (in_bounds col lo hi) (rows df) fs Hs)
    as [fs' Hfs'].
  rewrite (assign_filter_numeric col _ fs' lo hi); try done.
  split; [done|]. simpl. unfold row_filter. simpl.
  by rewrite filter_twice.
Qed.

Lemma refilter_with_same_bounds_witness :
  titanic_no_outliers
    (snd (assign_titanic_no_outliers "age"
            (rebind_titanic skewed_once (snd (run "age" skewed)))))
  = Some skewed_once.
Proof.
  apply (refilter_with_same_bounds "age" skewed (snd (run "age" skewed))
           skewed_once); reflexivity.
Defined.

(** The claim C2 fails: a second run recomputes the quartiles on the
    shorter column and drops the row with value 8. *)
Lemma second_run_drops_more :
  outlier_filter "age" skewed = Ok skewed_once
  ∧ outlier_filter "age" skewed_once = Ok skewed_twice
  ∧ skewed_twice ≠ skewed_once.
Proof.
  split; [reflexivity|]. split; [reflexivity|].
  intros Heq. apply (f_equal (λ d, length (rows d))) in Heq. discriminate.
Qed.

(** *** Missing values *)

Lemma is_missing_spec col r : is_missing col r ↔ cell_at col r = CFloat NaN.
Proof.
  unfold is_missing. destruct (cell_at col r) as [[v|]|]; split; done.
Qed.

Lemma to_numeric_drop_missing_None col (rs : list (gmap string cell)) :
  to_numeric (cell_at col <$> rs) = None →
  to_numeric (cell_at col <$> filter (λ r, ¬ is_missing col r) rs) = None.
Proof.
  induction rs as [|r rs IH]; intros Hs; [done|].
  rewrite fmap_cons in Hs. cbn [to_numeric] in Hs.
  destruct (cell_at col r) as [[v|]|] eqn:Hc.
  - rewrite filter_cons_True by (rewrite is_missing_spec, Hc; done).
    rewrite fmap_cons, Hc. cbn [to_numeric].
    destruct (to_numeric (cell_at col <$> rs)); [done|]. by rewrite IH.
  - rewrite filter_cons_False by (rewrite is_missing_spec, Hc; tauto).
    destruct (to_numeric (cell_at col <$> rs)); [done|]. by apply IH.
  - rewrite filter_cons_True by (rewrite is_missing_spec, Hc; done).
    rewrite fmap_cons, Hc. done.
Qed.

Lemma to_numeric_drop_missing_Some col (rs : list (gmap string cell)) fs :
  to_numeric (cell_at col <$> rs) = Some fs →
  ∃ fs', to_numeric (cell_at col <$> filter (λ r, ¬ is_missing col r) rs)
         = Some fs'
         ∧ dropna fs' = dropna fs.
Proof.
  revert fs. induction rs as [|r rs IH]; intros fs Hs.
  - inversion Hs. by exists [].
  - rewrite fmap_cons in Hs. cbn [to_numeric] in Hs.
    destruct (cell_at col r) as [[v|]|] eqn:Hc; [| |done];
      destruct (to_numeric (cell_at col <$> rs)) as [fs0|]; try done;
      destruct (IH fs0 eq_refl) as (fs' & Hfs' & Hdrop);
      cbn in Hs; inversion Hs; subst.
    + rewrite filter_cons_True by (rewrite is_missing_spec, Hc; done).
      exists (Real v :: fs'). rewrite fmap_cons, Hc. cbn [to_numeric].
      rewrite Hfs'. simpl. by rewrite Hdrop.
    + rewrite filter_cons_False by (rewrite is_missing_spec, Hc; tauto).
      by exists fs'.
Qed.

Lemma nanquantile_dropna fs fs' q :
  dropna fs' = dropna fs → nanquantile fs' q = nanquantile fs q.
Proof. intros H. unfold nanquantile. by rewrite H. Qed.

Lemma in_bounds_not_missing col lo hi r :
  in_bounds col lo hi r → ¬ is_missing col r.
Proof.
  unfold in_bounds, is_missing.
  destruct (cell_at col r) as [[v|]|], lo, hi; simpl; tauto.
Qed.

Lemma filter_in_bounds_drop_missing col lo hi (rs : list (gmap string cell)) :
  filter (in_bounds col lo hi) (filter (λ r, ¬ is_missing col r) rs)
  = filter (in_bounds col lo hi) rs.
Proof.
  induction rs as [|r rs IH]; [done|].
  rewrite (filter_cons (λ r, ¬ is_missing col r)).
  destruct (decide (¬ is_missing col r)) as [Hr|Hr].
  - rewrite !filter_cons, IH. done.
  - rewrite IH, filter_cons_False; [done|].
    intros Hin. by apply Hr, (in_bounds_not_missing col lo hi).
Qed.

(** C4.  Removing from the input the rows that miss a value in the target
    column changes nothing in what the run computes: same outcome, same
    [Q1] and [Q3], same bounds, same output table.  No row of the output
    misses its value in the target column. *)
Theorem missing_values_excluded col df :
  fst (run col df) = fst (run col (drop_missing col df))
  ∧ Q1 (snd (run col df)) = Q1 (snd (run col (drop_missing col df)))
  ∧ Q3 (snd (run col df)) = Q3 (snd (run col (drop_missing col df)))
  ∧ lower_bound (snd (run col df))
    = lower_bound (snd (run col (drop_missing col df)))
  ∧ upper_bound (snd (run col df))
    = upper_bound (snd (run col (drop_missing col df)))
  ∧ titanic_no_outliers (snd (run col df))
    = titanic_no_outliers (snd (run col (drop_missing col df)))
  ∧ (∀ out r, titanic_no_outliers (snd (run col df)) = Some out →
       r ∈ rows out → ¬ is_missing col r).
Proof.
  destruct (decide (col ∈ columns df)) as [Hc|Hc].
  - destruct (to_numeric (series col df)) as [fs|] eqn:Hs.
    + destruct (to_numeric_drop_missing_Some col (rows df) fs Hs)
        as (fs' & Hs' & Hdrop).
      rewrite (run_numeric col df fs Hc Hs).
      rewrite (run_numeric col (drop_missing col df) fs' Hc Hs').
      unfold final. rewrite !(nanquantile_dropna fs fs' _ Hdrop).
      simpl. unfold row_filter, drop_missing. simpl.
      rewrite filter_in_bounds_drop_missing.
      repeat (split; [done|]).
      intros out r Hout Hr. inversion Hout; subst. simpl in Hr.
      apply list_elem_of_filter in Hr as [Hin _].
      by apply (in_bounds_not_missing col _ _ r Hin).
    + rewrite (run_type_error col df Hc Hs).
      rewrite (run_type_error col (drop_missing col df) Hc
                 (to_numeric_drop_missing_None col (rows df) Hs)).
      simpl. repeat (split; [done|]). intros out r Hout. discriminate.
  - rewrite (run_key_error col df Hc).
    rewrite (run_key_error col (drop_missing col df) Hc).
    simpl. repeat (split; [done|]). intros out r Hout. discriminate.
Qed.

Lemma missing_values_excluded_witness :
  Q1 (snd (run "age" head_with_gap))
  = Q1 (snd (run "age" (drop_missing "age" head_with_gap)))
  ∧ ¬ is_missing "age" (passenger "female" (Real 38)).
Proof.
  destruct (missing_values_excluded "age" head_with_gap)
    as (_ & Hq1 & _ & _ & _ & _ & Hrows).
  split.
  - exact Hq1.
  - apply (Hrows _ _ eq_refl). apply list_elem_of_here.
Defined.

(** *** Degenerate distribution *)

Lemma filter_all {A} (P : A → Prop) `{!∀ x, Decision (P x)} (l : list A) :
  (∀ x, x ∈ l → P x) → filter P l = l.
Proof.
  induction l as [|x l IH]; intros Hall; [done|].
  rewrite filter_cons_True by (apply Hall; left).
  f_equal. apply IH. intros y Hy. apply Hall. by right.
Qed.

(** C8.  On a table whose target column holds [c] in every row but one,
    which holds [c + 1000], and whose quartiles are both [c], the bounds
    are both [c] and the output is the input without the [c + 1000] row:
    every [c] row is retained, in order. *)
Theorem degenerate_distribution col df c l1 r l2 ns q1 q3 :
  run col df = (Ok (), ns) →
  rows df = l1 ++ r :: l2 →
  (∀ r', r' ∈ l1 ++ l2 → ∃ v, cell_at col r' = CFloat (Real v) ∧ v == c) →
  (∃ v, cell_at col r = CFloat (Real v) ∧ v == c + 1000) →
  Q1 ns = Some (Real q1) → q1 == c →
  Q3 ns = Some (Real q3) → q3 == c →
  (∃ lo hi, lower_bound ns = Some (Real lo) ∧ lo == c
            ∧ upper_bound ns = Some (Real hi) ∧ hi == c)
  ∧ titanic_no_outliers ns = Some (mkDataFrame (columns df) (l1 ++ l2)).
Proof.
  intros Hrun Hrows Hconst (vr & Hr & Hvr) Hq1 Hc1 Hq3 Hc3.
  apply run_inv in Hrun as (fs & Hc & Hs & ->).
  simpl in Hq1, Hq3. inversion Hq1 as [Hq1']. inversion Hq3 as [Hq3'].
  simpl. rewrite Hq1', Hq3'. clear Hq1 Hq3.
  unfold lower_of, upper_of, iqr_of, row_filter. simpl.
  split.
  { eexists _, _. split; [reflexivity|]. split; [lra|].
    split; [reflexivity | lra]. }
  do 2 f_equal. rewrite Hrows, filter_app, filter_cons_False.
  - rewrite !filter_all; [done | |].
    + intros r' Hr'. destruct (Hconst r') as (v & Hv & Hvc).
      { apply elem_of_app. by right. }
      apply (in_bounds_real _ _ _ _ _ Hv). split; lra.
    + intros r' Hr'. destruct (Hconst r') as (v & Hv & Hvc).
      { apply elem_of_app. by left. }
      apply (in_bounds_real _ _ _ _ _ Hv). split; lra.
  - rewrite (in_bounds_real _ _ _ _ _ Hr). intros [_ Hhi]. lra.
Qed.

Lemma degenerate_distribution_witness :
  titanic_no_outliers (snd (run "age" constant_with_spike))
  = Some (of_ages [7; 7; 7; 7]%Z).
Proof.
  pose (c := {[ "age"%string := CFloat (Real 7) ]} : gmap string cell).
  destruct (degenerate_distribution "age" constant_with_spike 7
              [c; c] {[ "age"%string := CFloat (Real 1007) ]} [c; c]
              (snd (run "age" constant_with_spike)) (28 # 4) (28 # 4))
    as [_ Hout].
  - reflexivity.
  - reflexivity.
  - intros r' Hr'. exists 7. split; [|reflexivity].
    repeat (apply elem_of_cons in Hr' as [->|Hr']; [reflexivity|]).
    by apply elem_of_nil in Hr'.
  - exists 1007. split; reflexivity.
  - reflexivity.
  - reflexivity.
  - reflexivity.
  - reflexivity.
  - rewrite Hout. reflexivity.
Defined.

(** How many constant rows are enough: with four or more of them beside
    the spike, both quartiles are the constant. *)

Lemma sorted_mostly_constant (xs : list Q) (c : Q) :
  StronglySorted Qle xs → Forall (λ x, c <= x) xs →
  (length (filter (λ x, ¬ x == c) xs) <= 1)%nat →
  ∀ i, (S i < length xs)%nat → nth i xs 0 == c.
Proof.
  induction 1 as [|x xs Hs IH Hx]; intros Hge Hcount i Hi.
  - simpl in Hi. lia.
  - apply Forall_cons in Hge as [Hcx Hge].
    destruct i as [|i]; simpl in *.
    + destruct (Qeq_dec x c) as [Heq|Hneq]; [done|]. exfalso.
      rewrite filter_cons_True in Hcount by done.
      rewrite filter_all in Hcount; [simpl in Hcount; lia|].
      intros y Hy Hyc. rewrite Forall_forall in Hx.
      specialize (Hx y Hy). apply Hneq. lra.
    + apply IH; [done| |lia].
      rewrite filter_cons in Hcount.
      destruct (decide (¬ x == c)); simpl in Hcount; lia.
Qed.

Lemma inject_Z_minus (a b : Z) : inject_Z (a - b) == inject_Z a - inject_Z b.
Proof. unfold Z.sub, Qminus. by rewrite inject_Z_plus, inject_Z_opp. Qed.

Lemma interpolate_constant_prefix (xs : list Q) (c q : Q) :
  (∀ i, (S i < length xs)%nat → nth i xs 0 == c) →
  (2 <= length xs)%nat → 0 <= q →
  inject_Z (Z.of_nat (length xs) - 1) * q <= inject_Z (Z.of_nat (length xs) - 2) →
  interpolate xs q == c.
Proof.
  intros Hconst Hlen Hq Hh. unfold interpolate, nth_clamp.
  set (h := inject_Z (Z.of_nat (length xs) - 1) * q) in *.
  assert (0 <= h) as Hh0.
  { apply Qmult_le_0_compat; [|done].
    change 0 with (inject_Z 0). rewrite <- Zle_Qle. lia. }
  pose proof (Qfloor_le h) as Hfl.
  assert (0 <= Qfloor h)%Z as Hj0.
  { change 0%Z with (Qfloor 0). by apply Qfloor_resp_le. }
  assert (Qfloor h <= Z.of_nat (length xs) - 2)%Z as Hj2.
  { rewrite Zle_Qle. lra. }
  rewrite (Nat.min_l (Z.to_nat (Qfloor h))) by lia.
  pose proof (Hconst (Z.to_nat (Qfloor h)) ltac:(lia)) as Ha.
  destruct (Z.eq_dec (Qfloor h) (Z.of_nat (length xs) - 2)%Z) as [Heq|Hne].
  - assert (h - inject_Z (Qfloor h) == 0) as Hg.
    { rewrite Heq in Hfl |- *. lra. }
    rewrite Hg, Ha. lra.
  - rewrite (Nat.min_l (Z.to_nat (Qfloor h) + 1)) by lia.
    pose proof (Hconst (Z.to_nat (Qfloor h) + 1)%nat ltac:(lia)) as Hb.
    rewrite Ha, Hb. lra.
Qed.

Lemma real_column col (rs : list (gmap string cell)) :
  (∀ r, r ∈ rs → ∃ v, cell_at col r = CFloat (Real v)) →
  ∃ fs, to_numeric (cell_at col <$> rs) = Some fs
        ∧ Forall2 (λ r v, cell_at col r = CFloat (Real v)) rs (dropna fs).
Proof.
  induction rs as [|r rs IH]; intros Hall.
  - exists []. split; [done | constructor].
  - destruct IH as (fs & Hfs & Hvals).
    { intros r' Hr'. apply Hall. by right. }
    destruct (Hall r) as [v Hv]; [by left|].
    exists (Real v :: fs). rewrite fmap_cons. cbn [to_numeric].
    rewrite Hv, Hfs. split; [done|]. simpl. by constructor.
Qed.

Lemma constant_values col c (rs : list (gmap string cell)) (vs : list Q) :
  Forall2 (λ r v, cell_at col r = CFloat (Real v)) rs vs →
  (∀ r, r ∈ rs → ∃ v, cell_at col r = CFloat (Real v) ∧ v == c) →
  Forall (λ v, v == c) vs.
Proof.
  induction 1 as [|r v rs vs Hv _ IH]; intros Hall; constructor.
  - destruct (Hall r) as (v' & Hv' & Hc); [by left|].
    rewrite Hv in Hv'. by inversion Hv'; subst.
  - apply IH. intros r' Hr'. apply Hall. by right.
Qed.

Lemma filter_none {A} (P : A → Prop) `{!∀ x, Decision (P x)} (l : list A) :
  Forall (λ x, ¬ P x) l → filter P l = [].
Proof.
  induction 1 as [|x l Hx _ IH]; [done|].
  by rewrite filter_cons_False.
Qed.

Lemma four_constant_rows_suffice col df c l1 r l2 :
  col ∈ columns df →
  rows df = l1 ++ r :: l2 →
  (∀ r', r' ∈ l1 ++ l2 → ∃ v, cell_at col r' = CFloat (Real v) ∧ v == c) →
  (∃ v, cell_at col r = CFloat (Real v) ∧ v == c + 1000) →
  (4 <= length (l1 ++ l2))%nat →
  ∃ ns q1 q3, run col df = (Ok (), ns)
              ∧ Q1 ns = Some (Real q1) ∧ q1 == c
              ∧ Q3 ns = Some (Real q3) ∧ q3 == c.
Proof.
  intros Hc Hrows Hconst (vr & Hr & Hvr) Hlen.
  assert (∀ r', r' ∈ l1 → ∃ v, cell_at col r' = CFloat (Real v) ∧ v == c)
    as Hconst1 by (intros r' Hr'; apply Hconst, elem_of_app; by left).
  assert (∀ r', r' ∈ l2 → ∃ v, cell_at col r' = CFloat (Real v) ∧ v == c)
    as Hconst2 by (intros r' Hr'; apply Hconst, elem_of_app; by right).
  destruct (real_column col (rows df)) as (fs & Hs & Hvals).
  { intros r' Hr'. rewrite Hrows in Hr'.
    apply elem_of_app in Hr' as [Hr'|Hr'].
    - destruct (Hconst1 r' Hr') as (v & Hv & _). by exists v.
    - apply elem_of_cons in Hr' as [->|Hr']; [by exists vr|].
      destruct (Hconst2 r' Hr') as (v & Hv & _). by exists v. }
  rewrite Hrows in Hvals.
  apply Forall2_app_inv_l in Hvals as (vs1 & vs' & Hvs1 & Hvs' & Hvs).
  apply Forall2_cons_inv_l in Hvs' as (v & vs2 & Hv & Hvs2 & ->).
  rewrite Hr in Hv. inversion Hv; subst v; clear Hv.
  pose proof (constant_values col c l1 vs1 Hvs1 Hconst1) as Hc1.
  pose proof (constant_values col c l2 vs2 Hvs2 Hconst2) as Hc2.
  assert (length (dropna fs) = S (length (l1 ++ l2))) as Hn.
  { rewrite Hvs, !length_app. simpl.
    rewrite (Forall2_length _ _ _ Hvs1), (Forall2_length _ _ _ Hvs2). lia. }
  assert (dropna fs ≠ []) as Hne by (intros Hnil; rewrite Hnil in Hn; done).
  set (xs := merge_sort Qle (dropna fs)).
  assert (length xs = length (dropna fs)) as Hlenxs
    by (unfold xs; by rewrite merge_sort_Permutation).
  assert (∀ i, (S i < length xs)%nat → nth i xs 0 == c) as Hprefix.
  { apply sorted_mostly_constant.
    - apply StronglySorted_merge_sort; apply _.
    - unfold xs. rewrite merge_sort_Permutation, Hvs.
      apply Forall_app. split; [|constructor; [lra|]].
      + eapply Forall_impl; [exact Hc1|]. simpl. intros x Hx. lra.
      + eapply Forall_impl; [exact Hc2|]. simpl. intros x Hx. lra.
    - unfold xs. rewrite merge_sort_Permutation, Hvs.
      rewrite filter_app, filter_cons_True by lra.
      rewrite !filter_none; [done| |].
      + eapply Forall_impl; [exact Hc2|]. simpl. tauto.
      + eapply Forall_impl; [exact Hc1|]. simpl. tauto. }
  exists (final col df fs), (interpolate xs (1 # 4)), (interpolate xs (3 # 4)).
  split; [by apply run_numeric|].
  unfold final. simpl. rewrite !(nanquantile_real fs _ Hne). fold xs.
  assert (0 <= inject_Z (Z.of_nat (length xs) - 5)) as Hn5.
  { change 0 with (inject_Z 0). rewrite <- Zle_Qle. lia. }
  rewrite inject_Z_minus in Hn5.
  split; [done|]. split; [|split; [done|]].
  - apply interpolate_constant_prefix; [done|lia|done|].
    rewrite !inject_Z_minus. change (inject_Z 1) with 1.
    change (inject_Z 2) with 2. change (inject_Z 5) with 5 in Hn5. lra.
  - apply interpolate_constant_prefix; [done|lia|done|].
    rewrite !inject_Z_minus. change (inject_Z 1) with 1.
    change (inject_Z 2) with 2. change (inject_Z 5) with 5 in Hn5. lra.
Qed.

(** *** The cell from an arbitrary namespace *)

Lemma cell_body_key_error col ns :
  col ∉ columns (titanic ns) →
  cell_body col ns = (Raise (KeyError col), ns).
Proof.
  intros Hc. unfold cell_body. by apply bind_raise, assign_Q1_key_error.
Qed.

Lemma cell_body_type_error col ns :
  col ∈ columns (titanic ns) → to_numeric (series col (titanic ns)) = None →
  cell_body col ns = (Raise TypeError, ns).
Proof.
  intros Hc Hs. unfold cell_body. by apply bind_raise, assign_Q1_type_error.
Qed.

Lemma cell_body_numeric col ns fs :
  col ∈ columns (titanic ns) →
  to_numeric (series col (titanic ns)) = Some fs →
  cell_body col ns = (Ok (), final col (titanic ns) fs).
Proof.
  intros Hc Hs.
  unfold cell_body, assign_Q1, assign_Q3, assign_IQR, assign_lower_bound,
    assign_upper_bound, assign_titanic_no_outliers, bind, read_titanic, read,
    lift.
  rewrite (getitem_present _ _ Hc).
  rewrite (quantile_numeric _ _ _ quarter_in_unit Hs).
  step_cell.
  rewrite (getitem_present _ _ Hc).
  rewrite (quantile_numeric _ _ _ three_quarters_in_unit Hs).
  step_cell.
  rewrite (getitem_present _ _ Hc).
  rewrite (series_ge_numeric _ fs) by done.
  rewrite (series_le_numeric _ fs) by done.
  unfold getitem_mask.
  rewrite mask_and_length, (to_numeric_length _ _ Hs).
  unfold series. rewrite length_fmap.
  rewrite decide_True by done.
  step_cell.
  rewrite (select_rows_filter col _ _ _ fs Hs). done.
Qed.

(** X1.  The only exceptions the six assignments can raise are the
    [KeyError] of an absent column and the [TypeError] of a non-numeric one;
    a [NameError], [ValueError] or [IndexingError] never comes out.  When
    one is raised the namespace is exactly the one the cell started from,
    whatever earlier runs had left in it. *)
Theorem raise_is_all_or_nothing col ns e ns' :
  cell_body col ns = (Raise e, ns') →
  ns' = ns
  ∧ ((e = KeyError col ∧ col ∉ columns (titanic ns))
     ∨ (e = TypeError ∧ col ∈ columns (titanic ns)
        ∧ to_numeric (series col (titanic ns)) = None)).
Proof.
  intros Hrun.
  destruct (decide (col ∈ columns (titanic ns))) as [Hc|Hc].
  - destruct (to_numeric (series col (titanic ns))) as [fs|] eqn:Hs.
    + rewrite (cell_body_numeric col ns fs Hc Hs) in Hrun. discriminate.
    + rewrite (cell_body_type_error col ns Hc Hs) in Hrun.
      inversion Hrun; subst. split; [done|]. by right.
  - rewrite (cell_body_key_error col ns Hc) in Hrun.
    inversion Hrun; subst. split; [done|]. by left.
Qed.

Lemma raise_is_all_or_nothing_witness :
  snd (cell_body "fare" (snd (run "age" head_with_gap)))
  = snd (run "age" head_with_gap).
Proof.
  destruct (raise_is_all_or_nothing "fare" (snd (run "age" head_with_gap))
              (KeyError "fare")
              (snd (cell_body "fare" (snd (run "age" head_with_gap))))
              eq_refl)
    as [Hns _].
  exact Hns.
Defined.

(** X2.  What earlier runs left in the variables has no influence: from
    any namespace the six assignments end as they do on a freshly loaded
    table, and on success leave the very namespace a fresh run leaves.  So
    running them a second time, with [titanic] still bound to the same
    table, changes nothing. *)
Theorem rerun_changes_nothing col ns :
  fst (cell_body col ns) = fst (run col (titanic ns))
  ∧ (fst (cell_body col ns) = Ok () →
     snd (cell_body col ns) = snd (run col (titanic ns)))
  ∧ cell_body col (snd (cell_body col ns)) = cell_body col ns.
Proof.
  destruct (decide (col ∈ columns (titanic ns))) as [Hc|Hc].
  - destruct (to_numeric (series col (titanic ns))) as [fs|] eqn:Hs.
    + rewrite (cell_body_numeric col ns fs Hc Hs).
      rewrite (run_numeric col (titanic ns) fs Hc Hs). simpl.
      repeat (split; [done|]).
      by rewrite (cell_body_numeric col (final col (titanic ns) fs) fs).
    + rewrite (cell_body_type_error col ns Hc Hs).
      rewrite (run_type_error col (titanic ns) Hc Hs). simpl.
      split; [done|]. split; [discriminate|].
      by rewrite (cell_body_type_error col ns Hc Hs).
  - rewrite (cell_body_key_error col ns Hc).
    rewrite (run_key_error col (titanic ns) Hc). simpl.
    split; [done|]. split; [discriminate|].
    by rewrite (cell_body_key_error col ns Hc).
Qed.

Lemma rerun_changes_nothing_witness :
  snd (cell_body "age" (snd (run "age" skewed))) = snd (run "age" skewed).
Proof.
  destruct (rerun_changes_nothing "age" (snd (run "age" skewed)))
    as (_ & Hsame & _).
  apply Hsame. reflexivity.
Defined.

(** *** Where the quartiles lie *)

Lemma nth_clamp_elem (xs : list Q) (i : nat) : xs ≠ [] → nth_clamp xs i ∈ xs.
Proof.
  intros Hne. unfold nth_clamp. apply list_elem_of_In, nth_In.
  destruct xs; [done|]. simpl. lia.
Qed.

Lemma interpolate_in_range (xs : list Q) (q lo hi : Q) :
  xs ≠ [] → Forall (λ x, lo <= x ∧ x <= hi) xs →
  lo <= interpolate xs q ∧ interpolate xs q <= hi.
Proof.
  intros Hne Hall. unfold interpolate.
  set (h := inject_Z (Z.of_nat (length xs) - 1) * q).
  destruct (fraction_bounds h) as [Hg0 Hg1].
  rewrite Forall_forall in Hall.
  destruct (Hall _ (nth_clamp_elem xs (Z.to_nat (Qfloor h)) Hne)).
  destruct (Hall _ (nth_clamp_elem xs (Z.to_nat (Qfloor h) + 1) Hne)).
  split; nra.
Qed.

Lemma dropna_elem col (rs : list (gmap string cell)) fs x :
  to_numeric (cell_at col <$> rs) = Some fs →
  x ∈ dropna fs ↔ ∃ r, r ∈ rs ∧ cell_at col r = CFloat (Real x).
Proof.
  revert fs. induction rs as [|r rs IH]; intros fs Hs.
  - inversion Hs. simpl. split.
    + intros H. by apply elem_of_nil in H.
    + intros (r & H & _). by apply elem_of_nil in H.
  - rewrite fmap_cons in Hs. cbn [to_numeric] in Hs.
    destruct (cell_at col r) as [f|str] eqn:Hc; [|done].
    destruct (to_numeric (cell_at col <$> rs)) as [fs'|]; [|done].
    cbn in Hs. inversion Hs; subst. clear Hs.
    specialize (IH fs' eq_refl).
    destruct f as [v|]; simpl.
    + rewrite elem_of_cons, IH. split.
      * intros [->|(r' & Hr' & Hv)]; [exists r; split; [left|done]|].
        exists r'. split; [by right|done].
      * intros (r' & Hr' & Hv). apply elem_of_cons in Hr' as [->|Hr'].
        -- left. rewrite Hc in Hv. by inversion Hv.
        -- right. by exists r'.
    + rewrite IH. split.
      * intros (r' & Hr' & Hv). exists r'. split; [by right|done].
      * intros (r' & Hr' & Hv). apply elem_of_cons in Hr' as [->|Hr'].
        -- rewrite Hc in Hv. discriminate.
        -- by exists r'.
Qed.

Lemma sorted_observations col (rs : list (gmap string cell)) fs x :
  to_numeric (cell_at col <$> rs) = Some fs →
  x ∈ merge_sort Qle (dropna fs) →
  ∃ r, r ∈ rs ∧ cell_at col r = CFloat (Real x).
Proof.
  intros Hs Hx. rewrite merge_sort_Permutation in Hx.
  by apply (dropna_elem col rs fs x Hs).
Qed.



(** *** What always survives *)



(** *** A column of one value *)

Lemma filter_ext_in {A} (P1 P2 : A → Prop)
    `{!∀ x, Decision (P1 x), !∀ x, Decision (P2 x)} (l : list A) :
  (∀ x, x ∈ l → P1 x ↔ P2 x) → filter P1 l = filter P2 l.
Proof.
  induction l as [|x l IH]; intros Hiff; [done|].
  assert (filter P1 l = filter P2 l) as Htl
    by (apply IH; intros y Hy; apply Hiff; by right).
  destruct (decide (P1 x)) as [Hx|Hx].
  - rewrite !filter_cons_True; [by rewrite Htl| |done].
    apply Hiff; [left|done].
  - rewrite !filter_cons_False; [done| |done].
    intros Hx2. apply Hx, Hiff; [left|done].
Qed.

Lemma numeric_cell col (rs : list (gmap string cell)) fs r :
  to_numeric (cell_at col <$> rs) = Some fs → r ∈ rs →
  ∃ f, cell_at col r = CFloat f.
Proof.
  revert fs. induction rs as [|r1 rs IH]; intros fs Hs Hr.
  - by apply elem_of_nil in Hr.
  - rewrite fmap_cons in Hs. cbn [to_numeric] in Hs.
    destruct (cell_at col r1) as [f|str] eqn:Hc; [|done].
    destruct (to_numeric (cell_at col <$> rs)) as [fs'|]; [|done].
    apply elem_of_cons in Hr as [->|Hr]; [by exists f|].
    by apply (IH fs').
Qed.

(** X6.  When every observation of a numeric column holds the same finite
    number, nothing but the rows with a missing value is removed: the
    output is the input without those rows. *)
Theorem constant_column_loses_no_observation col df fs c r0 v0 :
  col ∈ columns df → to_numeric (series col df) = Some fs →
  r0 ∈ rows df → cell_at col r0 = CFloat (Real v0) →
  (∀ r v, r ∈ rows df → cell_at col r = CFloat (Real v) → v == c) →
  outlier_filter col df = Ok (drop_missing col df).
Proof.
  intros Hc Hs Hr0 Hv0 Hconst.
  pose proof (dropna_nonempty col (rows df) fs r0 v0 Hs Hr0 Hv0) as Hne.
  pose proof (merge_sort_nonempty _ Hne) as Hne'.
  assert (Forall (λ x, c <= x ∧ x <= c) (merge_sort Qle (dropna fs))) as Hall.
  { apply Forall_forall. intros x Hx.
    destruct (sorted_observations col (rows df) fs x Hs Hx) as (r & Hr & Hv).
    pose proof (Hconst r x Hr Hv). split; lra. }
  pose proof (interpolate_in_range _ (1 # 4) c c Hne' Hall) as [? ?].
  pose proof (interpolate_in_range _ (3 # 4) c c Hne' Hall) as [? ?].
  rewrite (outlier_filter_numeric col df fs Hc Hs).
  rewrite !(nanquantile_real fs _ Hne).
  unfold row_filter, drop_missing, lower_of, upper_of, iqr_of. simpl.
  do 2 f_equal. apply filter_ext_in. intros r Hr.
  destruct (numeric_cell col (rows df) fs r Hs Hr) as [[v|] Hv].
  - rewrite (in_bounds_real _ _ _ _ _ Hv), is_missing_spec, Hv.
    pose proof (Hconst r v Hr Hv). split; [done|]. intros _. split; lra.
  - rewrite is_missing_spec, Hv. unfold in_bounds. rewrite Hv. tauto.
Qed.

Lemma constant_column_loses_no_observation_witness :
  outlier_filter "age"
    (mkDataFrame ["sex"; "age"]%string
       [passenger "male" (Real 7); passenger "female" NaN;
        passenger "male" (Real 7)])
  = Ok (drop_missing "age"
          (mkDataFrame ["sex"; "age"]%string
             [passenger "male" (Real 7); passenger "female" NaN;
              passenger "male" (Real 7)])).
Proof.
  apply (constant_column_loses_no_observation "age" _
           [Real 7; NaN; Real 7] 7 (passenger "male" (Real 7)) 7).
  - by apply (bool_decide_unpack _).
  - reflexivity.
  - apply list_elem_of_here.
  - reflexivity.
  - intros r v Hr Hv.
    repeat (apply elem_of_cons in Hr as [->|Hr];
            [vm_compute in Hv; inversion Hv; reflexivity|]).
    by apply elem_of_nil in Hr.
Defined.

(** *** Row order *)

Lemma to_numeric_Permutation (s s' : list cell) fs :
  s ≡ₚ s' → to_numeric s = Some fs →
  ∃ fs', to_numeric s' = Some fs' ∧ fs ≡ₚ fs'.
Proof.
  intros Hp. revert fs.
  induction Hp as [|c s s' Hp IH|c1 c2 s|s1 s2 s3 _ IH1 _ IH2]; intros fs Hs.
  - exists fs. done.
  - cbn [to_numeric] in *. destruct c as [f|str]; [|done].
    destruct (to_numeric s) as [fs0|]; [|done].
    destruct (IH fs0 eq_refl) as (fs' & -> & Hperm).
    cbn in Hs. inversion Hs; subst.
    exists (f :: fs'). split; [done|]. by constructor.
  - cbn [to_numeric] in *.
    destruct c1 as [f1|str1], c2 as [f2|str2];
      try done; destruct (to_numeric s) as [fs0|]; try done.
    cbn in Hs. inversion Hs; subst.
    exists (f1 :: f2 :: fs0). split; [done|]. apply perm_swap.
  - destruct (IH1 fs Hs) as (fs2 & Hs2 & Hp12).
    destruct (IH2 fs2 Hs2) as (fs3 & Hs3 & Hp23).
    exists fs3. split; [done|]. by etrans.
Qed.

Lemma dropna_Permutation (fs fs' : list float64) :
  fs ≡ₚ fs' → dropna fs ≡ₚ dropna fs'.
Proof.
  induction 1 as [|f fs fs' _ IH|f1 f2 fs|fs1 fs2 fs3 _ IH1 _ IH2].
  - done.
  - destruct f; simpl; [by constructor|done].
  - destruct f1, f2; simpl; try done. apply perm_swap.
  - by etrans.
Qed.

(** Two sorted arrangements of the same numbers agree position by
    position, as numbers. *)
Lemma sorted_Permutation_pointwise (l1 l2 : list Q) :
  StronglySorted Qle l1 → StronglySorted Qle l2 → l1 ≡ₚ l2 →
  Qred <$> l1 = Qred <$> l2.
Proof.
  intros Hs1 Hs2 Hp.
  apply (StronglySorted_unique_strong Qle).
  - intros x1 x2 Hx1 Hx2 H12 H21.
    apply list_elem_of_fmap in Hx1 as (y1 & -> & _).
    apply list_elem_of_fmap in Hx2 as (y2 & -> & _).
    apply Qred_complete. rewrite Qred_le in H12, H21. lra.
  - apply (StronglySorted_fmap _ Qle Qle); [|done].
    intros x y Hxy. by apply Qred_le.
  - apply (StronglySorted_fmap _ Qle Qle); [|done].
    intros x y Hxy. by apply Qred_le.
  - by apply fmap_Permutation.
Qed.

Lemma nth_Qred (l : list Q) (i : nat) : nth i (Qred <$> l) 0 == nth i l 0.
Proof.
  revert i. induction l as [|x l IH]; intros [|i]; simpl; try reflexivity.
  - apply Qred_correct.
  - apply IH.
Qed.

Lemma interpolate_Qred (l : list Q) (q : Q) :
  interpolate (Qred <$> l) q == interpolate l q.
Proof.
  unfold interpolate, nth_clamp. rewrite !length_fmap, !nth_Qred. reflexivity.
Qed.

Lemma interpolate_Permutation (l1 l2 : list Q) (q : Q) :
  l1 ≡ₚ l2 →
  interpolate (merge_sort Qle l1) q == interpolate (merge_sort Qle l2) q.
Proof.
  intros Hp.
  rewrite <- (interpolate_Qred (merge_sort Qle l1)).
  rewrite <- (interpolate_Qred (merge_sort Qle l2)).
  rewrite (sorted_Permutation_pointwise (merge_sort Qle l1) (merge_sort Qle l2)).
  - reflexivity.
  - apply StronglySorted_merge_sort; apply _.
  - apply StronglySorted_merge_sort; apply _.
  - by rewrite !merge_sort_Permutation.
Qed.

Lemma nanquantile_Permutation (fs fs' : list float64) (q : Q) :
  fs ≡ₚ fs' → same_float (nanquantile fs q) (nanquantile fs' q).
Proof.
  intros Hp. pose proof (dropna_Permutation fs fs' Hp) as Hd.
  destruct (decide (dropna fs = [])) as [Hnil|Hne].
  - assert (dropna fs' = []) as Hnil'
      by (apply Permutation_nil_r; by rewrite <- Hd, Hnil).
    by rewrite (nanquantile_empty fs q Hnil), (nanquantile_empty fs' q Hnil').
  - assert (dropna fs' ≠ []) as Hne'.
    { intros Hnil'. apply Hne. apply Permutation_nil_r. by rewrite Hd, Hnil'. }
    rewrite (nanquantile_real fs q Hne), (nanquantile_real fs' q Hne').
    simpl. by apply interpolate_Permutation.
Qed.

Lemma in_bounds_same_float col lo lo' hi hi' r :
  same_float lo lo' → same_float hi hi' →
  in_bounds col lo hi r ↔ in_bounds col lo' hi' r.
Proof.
  unfold same_float, in_bounds. intros Hlo Hhi.
  destruct (cell_at col r) as [[v|]|], lo, lo', hi, hi'; try tauto.
  split; intros [? ?]; split; lra.
Qed.

Lemma bounds_same_float (q1 q1' q3 q3' : float64) :
  same_float q1 q1' → same_float q3 q3' →
  same_float (lower_of q1 q3) (lower_of q1' q3')
  ∧ same_float (upper_of q1 q3) (upper_of q1' q3').
Proof.
  unfold same_float, lower_of, upper_of, iqr_of. intros H1 H3.
  destruct q1, q1', q3, q3'; simpl; try tauto. split; lra.
Qed.

(** X7.  The order of the rows does not matter: on a table with the same
    columns and the same rows in another order, the run ends the same way,
    with the same quartiles and bounds, and its output holds the same rows
    (in the new order). *)
Theorem row_order_is_irrelevant col df df' :
  columns df' = columns df → rows df' ≡ₚ rows df →
  fst (run col df') = fst (run col df)
  ∧ option_Forall2 same_float (Q1 (snd (run col df'))) (Q1 (snd (run col df)))
  ∧ option_Forall2 same_float (Q3 (snd (run col df'))) (Q3 (snd (run col df)))
  ∧ option_Forall2 same_float (lower_bound (snd (run col df')))
      (lower_bound (snd (run col df)))
  ∧ option_Forall2 same_float (upper_bound (snd (run col df')))
      (upper_bound (snd (run col df)))
  ∧ option_Forall2 (λ out' out, columns out' = columns out
                                ∧ rows out' ≡ₚ rows out)
      (titanic_no_outliers (snd (run col df')))
      (titanic_no_outliers (snd (run col df))).
Proof.
  intros Hcols Hrows.
  assert (series col df' ≡ₚ series col df) as Hser
    by (unfold series; by rewrite Hrows).
  destruct (decide (col ∈ columns df)) as [Hc|Hc].
  - assert (col ∈ columns df') as Hc' by (by rewrite Hcols).
    destruct (to_numeric (series col df)) as [fs|] eqn:Hs.
    + destruct (to_numeric_Permutation _ _ fs (symmetry Hser) Hs)
        as (fs' & Hs' & Hp).
      rewrite (run_numeric col df fs Hc Hs).
      rewrite (run_numeric col df' fs' Hc' Hs'). unfold final. simpl.
      pose proof (nanquantile_Permutation fs' fs (1 # 4) (symmetry Hp)) as H1.
      pose proof (nanquantile_Permutation fs' fs (3 # 4) (symmetry Hp)) as H3.
      destruct (bounds_same_float _ _ _ _ H1 H3) as [Hlo Hhi].
      split; [done|]. repeat (split; [by constructor|]).
      constructor. simpl. split; [done|].
      rewrite Hrows.
      by rewrite (list_filter_iff _ _ _
                  (λ r, in_bounds_same_float col _ _ _ _ r Hlo Hhi)).
    + destruct (to_numeric (series col df')) as [fs'|] eqn:Hs'.
      { destruct (to_numeric_Permutation _ _ fs' Hser Hs') as (fs & Hs2 & _).
        congruence. }
      rewrite (run_type_error col df Hc Hs).
      rewrite (run_type_error col df' Hc' Hs'). simpl.
      split; [done|]. repeat (split; [constructor|]). constructor.
  - assert (col ∉ columns df') as Hc' by (by rewrite Hcols).
    rewrite (run_key_error col df Hc), (run_key_error col df' Hc'). simpl.
    split; [done|]. repeat (split; [constructor|]). constructor.
Qed.

Lemma row_order_is_irrelevant_witness :
  option_Forall2 same_float
    (lower_bound (snd (run "age"
       (mkDataFrame (columns head_with_gap) (reverse (rows head_with_gap))))))
    (lower_bound (snd (run "age" head_with_gap))).
Proof.
  destruct (row_order_is_irrelevant "age" head_with_gap
              (mkDataFrame (columns head_with_gap)
                 (reverse (rows head_with_gap))))
    as (_ & _ & _ & Hlo & _).
  - reflexivity.
  - simpl rows. apply reverse_Permutation.
  - exact Hlo.
Defined.

(** *** The displayed head *)

Lemma take_filter_prefix {A} (P : A → Prop) `{!∀ x, Decision (P x)}
    (n : nat) (l : list A) :
  Forall P (take n l) → take n (filter P l) = take n l.
Proof.
  revert l. induction n as [|n IH]; intros [|x l] Hall; try done.
  simpl in Hall. apply Forall_cons in Hall as [Hx Hall].
  rewrite filter_cons_True by done. simpl. f_equal. by apply IH.
Qed.

(** X8.  When the assignments raise, the display statement is not reached
    and the cell ends with that exception.  When they succeed, the display
    never raises: it shows a table with the input's columns and at most
    five rows, the first rows of the input that are within the bounds, in
    the input's order; if the first five rows of the input are all within
    the bounds, it shows exactly those. *)
Theorem display_shows_leading_survivors col df :
  (∀ e ns, run col df = (Raise e, ns) →
           cell_and_display col (loaded df) = (Raise e, ns))
  ∧ (∀ ns lo hi,
       run col df = (Ok (), ns) →
       lower_bound ns = Some lo → upper_bound ns = Some hi →
       ∃ shown,
         cell_and_display col (loaded df) = (Ok shown, ns)
         ∧ columns shown = columns df
         ∧ rows shown = take 5 (filter (in_bounds col lo hi) (rows df))
         ∧ (length (rows shown) <= 5)%nat
         ∧ (Forall (in_bounds col lo hi) (take 5 (rows df)) →
            rows shown = take 5 (rows df))).
Proof.
  split.
  - intros e ns Hrun. unfold cell_and_display. by apply bind_raise.
  - intros ns lo hi Hrun Hlo Hhi.
    unfold cell_and_display. rewrite (bind_ok _ _ _ _ _ Hrun).
    apply run_inv in Hrun as (fs & Hc & Hs & ->).
    simpl in Hlo, Hhi. inversion Hlo; inversion Hhi; subst. clear Hlo Hhi.
    eexists. split; [reflexivity|]. simpl.
    split; [done|]. split; [done|]. split.
    + rewrite length_take. lia.
    + apply take_filter_prefix.
Qed.

Lemma display_shows_leading_survivors_witness :
  ∃ shown,
    cell_and_display "age" (loaded skewed) = (Ok shown, snd (run "age" skewed))
    ∧ rows shown = take 5 (rows skewed).
Proof.
  destruct (display_shows_leading_survivors "age" skewed) as [_ Hok].
  destruct (Hok (snd (run "age" skewed)) _ _ eq_refl eq_refl eq_refl)
    as (shown & Hrun & _ & _ & _ & Hhead).
  exists shown. split; [exact Hrun|].
  apply Hhead. simpl.
  repeat (constructor; [apply in_bounds_spec; eexists _, _, _;
                        repeat split; try reflexivity; by vm_compute|]).
  constructor.
Defined.

(** *** When a second run is harmless *)

Lemma outlier_filter_drop_missing col df :
  outlier_filter col (drop_missing col df) = outlier_filter col df.
Proof.
  destruct (decide (col ∈ columns df)) as [Hc|Hc].
  - destruct (to_numeric (series col df)) as [fs|] eqn:Hs.
    + destruct (to_numeric_drop_missing_Some col (rows df) fs Hs)
        as (fs' & Hs' & Hdrop).
      rewrite (outlier_filter_numeric col df fs Hc Hs).
      rewrite (outlier_filter_numeric col (drop_missing col df) fs' Hc Hs').
      rewrite !(nanquantile_dropna fs fs' _ Hdrop).
      unfold row_filter, drop_missing. simpl.
      by rewrite filter_in_bounds_drop_missing.
    + unfold outlier_filter.
      rewrite (run_type_error col df Hc Hs).
      by rewrite (run_type_error col (drop_missing col df) Hc
                    (to_numeric_drop_missing_None col (rows df) Hs)).
  - unfold outlier_filter.
    by rewrite (run_key_error col df Hc),
               (run_key_error col (drop_missing col df) Hc).
Qed.

(** X9.  If a run removes nothing but the rows with a missing value, then a
    second full run on its output, quartiles recomputed, returns that output
    unchanged. *)
Theorem clean_output_is_stable col df out :
  outlier_filter col df = Ok out → out = drop_missing col df →
  outlier_filter col out = Ok out.
Proof.
  intros Hout ->. by rewrite outlier_filter_drop_missing.
Qed.

Lemma clean_output_is_stable_witness :
  outlier_filter "age" skewed_twice = Ok skewed_twice.
Proof.
  apply (clean_output_is_stable "age" skewed_twice skewed_twice);
    reflexivity.
Defined.

(** *** The object store *)

Lemma store_bind_ok {A B} (m : Store.H A) (k : A → Store.H B) s a s' :
  m s = (Ok a, s') → Store.bind m k s = k a s'.
Proof. intros Hm. unfold Store.bind. by rewrite Hm. Qed.

Lemma store_bind_raise {A B} (m : Store.H A) (k : A → Store.H B) s e s' :
  m s = (Raise e, s') → Store.bind m k s = (Raise e, s').
Proof. intros Hm. unfold Store.bind. by rewrite Hm. Qed.

Lemma fresh_reference (h : gmap nat Store.object) :
  h !! fresh (dom h) = None.
Proof. apply not_elem_of_dom, is_fresh. Qed.

Lemma lookup_after_alloc (h : gmap nat Store.object) r o r' o' :
  h !! r = Some o → h !! r' = None → <[r' := o']> h !! r = Some o.
Proof.
  intros Hr Hr'. rewrite lookup_insert_ne; [done|]. congruence.
Qed.

Lemma read_titanic_spec h e :
  Store.read_titanic (Store.mkState h e)
  = (Ok (Store.titanic e), Store.mkState h e).
Proof. done. Qed.

Lemma read_spec {A} name (var : Store.environ → option A) h e v :
  var e = Some v →
  Store.read name var (Store.mkState h e) = (Ok v, Store.mkState h e).
Proof. intros Hv. unfold Store.read. simpl. by rewrite Hv. Qed.

Lemma update_spec f h e :
  Store.update f (Store.mkState h e) = (Ok (), Store.mkState h (f e)).
Proof. done. Qed.

Ltac store_step H := rewrite (store_bind_ok _ _ _ _ _ H).

Lemma alloc_spec o h e :
  ∃ r, Store.alloc o (Store.mkState h e)
       = (Ok r, Store.mkState (<[r := o]> h) e)
       ∧ h !! r = None.
Proof. exists (fresh (dom h)). split; [done | apply fresh_reference]. Qed.

Lemma frame_getitem_absent h e r df col :
  h !! r = Some (Store.Frame df) → col ∉ columns df →
  Store.frame_getitem r col (Store.mkState h e)
  = (Raise (KeyError col), Store.mkState h e).
Proof.
  intros Hr Hc. unfold Store.frame_getitem, Store.bind, Store.deref_frame,
    Store.lift. simpl. rewrite Hr. by rewrite (getitem_absent _ _ Hc).
Qed.

Lemma frame_getitem_present h e r df col :
  h !! r = Some (Store.Frame df) → col ∈ columns df →
  ∃ r', Store.frame_getitem r col (Store.mkState h e)
        = (Ok r', Store.mkState (<[r' := Store.Column r col]> h) e)
        ∧ h !! r' = None.
Proof.
  intros Hr Hc. unfold Store.frame_getitem, Store.bind, Store.deref_frame,
    Store.lift. simpl. rewrite Hr. rewrite (getitem_present _ _ Hc).
  apply alloc_spec.
Qed.

Lemma series_quantile_view h e r' r col df q :
  h !! r' = Some (Store.Column r col) → h !! r = Some (Store.Frame df) →
  col ∈ columns df →
  Store.series_quantile r' q (Store.mkState h e)
  = (quantile (series col df) q, Store.mkState h e).
Proof.
  intros Hr' Hr Hc. unfold Store.series_quantile, Store.bind,
    Store.deref_series, Store.lift. simpl.
  rewrite Hr', Hr. by rewrite (getitem_present _ _ Hc).
Qed.

Lemma series_ge_bound_view h e r' r col df fs lo :
  h !! r' = Some (Store.Column r col) → h !! r = Some (Store.Frame df) →
  col ∈ columns df → to_numeric (series col df) = Some fs →
  ∃ rm, Store.series_ge_bound r' lo (Store.mkState h e)
        = (Ok rm, Store.mkState (<[rm := Store.Mask (fle lo <$> fs)]> h) e)
        ∧ h !! rm = None.
Proof.
  intros Hr' Hr Hc Hs. unfold Store.series_ge_bound, Store.bind,
    Store.deref_series, Store.lift. simpl.
  rewrite Hr', Hr, (getitem_present _ _ Hc), (series_ge_numeric _ fs lo Hs).
  apply alloc_spec.
Qed.

Lemma series_le_bound_view h e r' r col df fs hi :
  h !! r' = Some (Store.Column r col) → h !! r = Some (Store.Frame df) →
  col ∈ columns df → to_numeric (series col df) = Some fs →
  ∃ rm, Store.series_le_bound r' hi (Store.mkState h e)
        = (Ok rm,
           Store.mkState (<[rm := Store.Mask ((λ f, fle f hi) <$> fs)]> h) e)
        ∧ h !! rm = None.
Proof.
  intros Hr' Hr Hc Hs. unfold Store.series_le_bound, Store.bind,
    Store.deref_series, Store.lift. simpl.
  rewrite Hr', Hr, (getitem_present _ _ Hc), (series_le_numeric _ fs hi Hs).
  apply alloc_spec.
Qed.

Lemma masks_and_spec h e r1 r2 m1 m2 :
  h !! r1 = Some (Store.Mask m1) → h !! r2 = Some (Store.Mask m2) →
  ∃ rm, Store.masks_and r1 r2 (Store.mkState h e)
        = (Ok rm, Store.mkState (<[rm := Store.Mask (mask_and m1 m2)]> h) e)
        ∧ h !! rm = None.
Proof.
  intros H1 H2. unfold Store.masks_and, Store.bind, Store.deref_mask. simpl.
  rewrite H1. simpl. rewrite H2. simpl. apply alloc_spec.
Qed.

Lemma frame_getitem_mask_spec h e r rm df m :
  h !! r = Some (Store.Frame df) → h !! rm = Some (Store.Mask m) →
  length m = length (rows df) →
  ∃ r', Store.frame_getitem_mask r rm (Store.mkState h e)
        = (Ok r',
           Store.mkState
             (<[r' := Store.Frame
                        (mkDataFrame (columns df) (select_rows (rows df) m))]> h)
             e)
        ∧ h !! r' = None.
Proof.
  intros Hr Hrm Hlen. unfold Store.frame_getitem_mask, Store.bind,
    Store.deref_frame, Store.deref_mask, Store.lift, getitem_mask. simpl.
  rewrite Hr. simpl. rewrite Hrm. simpl.
  rewrite decide_True by done. apply alloc_spec.
Qed.

Lemma store_assign_Q1_numeric col h e df fs :
  h !! Store.titanic e = Some (Store.Frame df) →
  col ∈ columns df → to_numeric (series col df) = Some fs →
  ∃ h', Store.assign_Q1 col (Store.mkState h e)
        = (Ok (), Store.mkState h' (Store.set_Q1 (nanquantile fs (1 # 4)) e))
        ∧ h ⊆ h'.
Proof.
  intros Hdf Hc Hs.
  destruct (frame_getitem_present h e _ df col Hdf Hc) as (r' & Hget & Hfresh).
  exists (<[r' := Store.Column (Store.titanic e) col]> h).
  split; [|by apply insert_subseteq].
  assert (Store.series_quantile r' (1 # 4)
            (Store.mkState (<[r' := Store.Column (Store.titanic e) col]> h) e)
          = (Ok (nanquantile fs (1 # 4)),
             Store.mkState (<[r' := Store.Column (Store.titanic e) col]> h) e))
    as Hq.
  { rewrite (series_quantile_view _ _ r' (Store.titanic e) col df).
    - by rewrite (quantile_numeric _ _ _ quarter_in_unit Hs).
    - apply lookup_insert_eq.
    - by apply lookup_after_alloc.
    - done. }
  unfold Store.assign_Q1.
  store_step (read_titanic_spec h e). store_step Hget. store_step Hq.
  apply update_spec.
Qed.

Lemma store_assign_Q3_numeric col h e df fs :
  h !! Store.titanic e = Some (Store.Frame df) →
  col ∈ columns df → to_numeric (series col df) = Some fs →
  ∃ h', Store.assign_Q3 col (Store.mkState h e)
        = (Ok (), Store.mkState h' (Store.set_Q3 (nanquantile fs (3 # 4)) e))
        ∧ h ⊆ h'.
Proof.
  intros Hdf Hc Hs.
  destruct (frame_getitem_present h e _ df col Hdf Hc) as (r' & Hget & Hfresh).
  exists (<[r' := Store.Column (Store.titanic e) col]> h).
  split; [|by apply insert_subseteq].
  assert (Store.series_quantile r' (3 # 4)
            (Store.mkState (<[r' := Store.Column (Store.titanic e) col]> h) e)
          = (Ok (nanquantile fs (3 # 4)),
             Store.mkState (<[r' := Store.Column (Store.titanic e) col]> h) e))
    as Hq.
  { rewrite (series_quantile_view _ _ r' (Store.titanic e) col df).
    - by rewrite (quantile_numeric _ _ _ three_quarters_in_unit Hs).
    - apply lookup_insert_eq.
    - by apply lookup_after_alloc.
    - done. }
  unfold Store.assign_Q3.
  store_step (read_titanic_spec h e). store_step Hget. store_step Hq.
  apply update_spec.
Qed.

Lemma store_assign_filter_numeric col h e df fs lo hi :
  h !! Store.titanic e = Some (Store.Frame df) →
  col ∈ columns df → to_numeric (series col df) = Some fs →
  Store.lower_bound e = Some lo → Store.upper_bound e = Some hi →
  ∃ h' r',
    Store.assign_titanic_no_outliers col (Store.mkState h e)
    = (Ok (), Store.mkState h' (Store.set_titanic_no_outliers r' e))
    ∧ h ⊆ h' ∧ h !! r' = None
    ∧ h' !! r' = Some (Store.Frame (row_filter col lo hi df)).
Proof.
  intros Hdf Hc Hs Hlo Hhi.
  set (t := Store.titanic e) in *.
  (* the view for the first comparison *)
  destruct (frame_getitem_present h e t df col Hdf Hc) as (s1 & Hs1 & Hf1).
  set (h1 := <[s1 := Store.Column t col]> h) in *.
  assert (h ⊆ h1) as Hsub1 by (by apply insert_subseteq).
  assert (h1 !! s1 = Some (Store.Column t col)) as Hv1
    by apply lookup_insert_eq.
  pose proof (lookup_weaken _ _ _ _ Hdf Hsub1) as Hdf1.
  (* its mask *)
  destruct (series_ge_bound_view h1 e s1 t col df fs lo Hv1 Hdf1 Hc Hs)
    as (m1 & Hm1 & Hf2).
  set (h2 := <[m1 := Store.Mask (fle lo <$> fs)]> h1) in *.
  assert (h1 ⊆ h2) as Hsub2 by (by apply insert_subseteq).
  assert (h2 !! m1 = Some (Store.Mask (fle lo <$> fs))) as Hk1
    by apply lookup_insert_eq.
  pose proof (lookup_weaken _ _ _ _ Hdf1 Hsub2) as Hdf2.
  (* the view for the second comparison *)
  destruct (frame_getitem_present h2 e t df col Hdf2 Hc) as (s2 & Hs2 & Hf3).
  set (h3 := <[s2 := Store.Column t col]> h2) in *.
  assert (h2 ⊆ h3) as Hsub3 by (by apply insert_subseteq).
  assert (h3 !! s2 = Some (Store.Column t col)) as Hv2
    by apply lookup_insert_eq.
  pose proof (lookup_weaken _ _ _ _ Hdf2 Hsub3) as Hdf3.
  (* its mask *)
  destruct (series_le_bound_view h3 e s2 t col df fs hi Hv2 Hdf3 Hc Hs)
    as (m2 & Hm2 & Hf4).
  set (h4 := <[m2 := Store.Mask ((λ f, fle f hi) <$> fs)]> h3) in *.
  assert (h3 ⊆ h4) as Hsub4 by (by apply insert_subseteq).
  assert (h4 !! m2 = Some (Store.Mask ((λ f, fle f hi) <$> fs))) as Hk2
    by apply lookup_insert_eq.
  pose proof (lookup_weaken _ _ _ _ Hdf3 Hsub4) as Hdf4.
  pose proof (lookup_weaken _ _ _ _ (lookup_weaken _ _ _ _ Hk1 Hsub3) Hsub4)
    as Hk1'.
  (* the conjunction *)
  destruct (masks_and_spec h4 e m1 m2 _ _ Hk1' Hk2) as (m & Hm & Hf5).
  set (mask := mask_and (fle lo <$> fs) ((λ f, fle f hi) <$> fs)) in *.
  set (h5 := <[m := Store.Mask mask]> h4) in *.
  assert (h4 ⊆ h5) as Hsub5 by (by apply insert_subseteq).
  assert (h5 !! m = Some (Store.Mask mask)) as Hk by apply lookup_insert_eq.
  pose proof (lookup_weaken _ _ _ _ Hdf4 Hsub5) as Hdf5.
  (* the selection *)
  assert (length mask = length (rows df)) as Hlen.
  { unfold mask. rewrite mask_and_length, (to_numeric_length _ _ Hs).
    unfold series. by rewrite length_fmap. }
  destruct (frame_getitem_mask_spec h5 e t m df mask Hdf5 Hk Hlen)
    as (r' & Hout & Hf6).
  assert (mkDataFrame (columns df) (select_rows (rows df) mask)
          = row_filter col lo hi df) as Hrows.
  { unfold row_filter, mask. by rewrite (select_rows_filter col lo hi _ fs Hs). }
  rewrite Hrows in Hout.
  set (h6 := <[r' := Store.Frame (row_filter col lo hi df)]> h5) in *.
  assert (h5 ⊆ h6) as Hsub6 by (by apply insert_subseteq).
  assert (h ⊆ h5) as Hsub05.
  { etrans; [exact Hsub1|]. etrans; [exact Hsub2|]. etrans; [exact Hsub3|].
    etrans; [exact Hsub4|]. exact Hsub5. }
  exists h6, r'. split; [|split; [|split]].
  - unfold Store.assign_titanic_no_outliers.
    store_step (read_titanic_spec h e). store_step (read_titanic_spec h e).
    store_step Hs1.
    store_step (read_spec "lower_bound" Store.lower_bound h1 e lo Hlo).
    store_step Hm1.
    store_step (read_titanic_spec h2 e). store_step Hs2.
    store_step (read_spec "upper_bound" Store.upper_bound h3 e hi Hhi).
    store_step Hm2. store_step Hm. store_step Hout.
    apply update_spec.
  - by etrans.
  - destruct (h !! r') eqn:Hr'; [|done].
    pose proof (lookup_weaken _ _ _ _ Hr' Hsub05). congruence.
  - apply lookup_insert_eq.
Qed.

Lemma store_assign_IQR_spec h e q1 q3 :
  Store.Q1 e = Some q1 → Store.Q3 e = Some q3 →
  Store.assign_IQR (Store.mkState h e)
  = (Ok (), Store.mkState h (Store.set_IQR (fsub q3 q1) e)).
Proof.
  intros H1 H3. unfold Store.assign_IQR.
  store_step (read_spec "Q3" Store.Q3 h e q3 H3).
  store_step (read_spec "Q1" Store.Q1 h e q1 H1).
  apply update_spec.
Qed.

Lemma store_assign_lower_bound_spec h e q1 iqr :
  Store.Q1 e = Some q1 → Store.IQR e = Some iqr →
  Store.assign_lower_bound (Store.mkState h e)
  = (Ok (),
     Store.mkState h
       (Store.set_lower_bound (fsub q1 (fmul (Real (3 # 2)) iqr)) e)).
Proof.
  intros H1 Hi. unfold Store.assign_lower_bound.
  store_step (read_spec "Q1" Store.Q1 h e q1 H1).
  store_step (read_spec "IQR" Store.IQR h e iqr Hi).
  apply update_spec.
Qed.

Lemma store_assign_upper_bound_spec h e q3 iqr :
  Store.Q3 e = Some q3 → Store.IQR e = Some iqr →
  Store.assign_upper_bound (Store.mkState h e)
  = (Ok (),
     Store.mkState h
       (Store.set_upper_bound (fadd q3 (fmul (Real (3 # 2)) iqr)) e)).
Proof.
  intros H3 Hi. unfold Store.assign_upper_bound.
  store_step (read_spec "Q3" Store.Q3 h e q3 H3).
  store_step (read_spec "IQR" Store.IQR h e iqr Hi).
  apply update_spec.
Qed.

Lemma store_cell_key_error col h e df :
  h !! Store.titanic e = Some (Store.Frame df) → col ∉ columns df →
  Store.cell_body col (Store.mkState h e)
  = (Raise (KeyError col), Store.mkState h e).
Proof.
  intros Hdf Hc. unfold Store.cell_body. apply store_bind_raise.
  unfold Store.assign_Q1. store_step (read_titanic_spec h e).
  apply store_bind_raise. by apply (frame_getitem_absent h e _ df).
Qed.

Lemma store_cell_type_error col h e df :
  h !! Store.titanic e = Some (Store.Frame df) →
  col ∈ columns df → to_numeric (series col df) = None →
  ∃ h', Store.cell_body col (Store.mkState h e)
        = (Raise TypeError, Store.mkState h' e)
        ∧ h ⊆ h'.
Proof.
  intros Hdf Hc Hs.
  destruct (frame_getitem_present h e _ df col Hdf Hc) as (r' & Hget & Hfresh).
  exists (<[r' := Store.Column (Store.titanic e) col]> h).
  split; [|by apply insert_subseteq].
  unfold Store.cell_body. apply store_bind_raise.
  unfold Store.assign_Q1. store_step (read_titanic_spec h e). store_step Hget.
  apply store_bind_raise.
  rewrite (series_quantile_view _ _ r' (Store.titanic e) col df).
  - by rewrite (quantile_non_numeric _ _ quarter_in_unit Hs).
  - apply lookup_insert_eq.
  - by apply lookup_after_alloc.
  - done.
Qed.

Lemma store_cell_numeric col h e df fs :
  h !! Store.titanic e = Some (Store.Frame df) →
  col ∈ columns df → to_numeric (series col df) = Some fs →
  let q1 := nanquantile fs (1 # 4) in
  let q3 := nanquantile fs (3 # 4) in
  ∃ h' r',
    Store.cell_body col (Store.mkState h e)
    = (Ok (),
       Store.mkState h'
         (Store.mkEnviron (Store.titanic e) (Some q1) (Some q3)
            (Some (iqr_of q1 q3)) (Some (lower_of q1 q3))
            (Some (upper_of q1 q3)) (Some r')))
    ∧ h ⊆ h' ∧ h !! r' = None
    ∧ h' !! r'
      = Some (Store.Frame (row_filter col (lower_of q1 q3) (upper_of q1 q3) df)).
Proof.
  intros Hdf Hc Hs q1 q3.
  destruct (store_assign_Q1_numeric col h e df fs Hdf Hc Hs) as (h1 & H1 & Hsub1).
  set (e1 := Store.set_Q1 q1 e) in *.
  assert (h1 !! Store.titanic e1 = Some (Store.Frame df)) as Hdf1
    by (by apply (lookup_weaken h)).
  destruct (store_assign_Q3_numeric col h1 e1 df fs Hdf1 Hc Hs)
    as (h2 & H2 & Hsub2).
  set (e2 := Store.set_Q3 q3 e1) in *.
  set (e3 := Store.set_IQR (iqr_of q1 q3) e2).
  set (e4 := Store.set_lower_bound (lower_of q1 q3) e3).
  set (e5 := Store.set_upper_bound (upper_of q1 q3) e4).
  assert (h2 !! Store.titanic e5 = Some (Store.Frame df)) as Hdf2
    by (by apply (lookup_weaken h1)).
  destruct (store_assign_filter_numeric col h2 e5 df fs
              (lower_of q1 q3) (upper_of q1 q3) Hdf2 Hc Hs eq_refl eq_refl)
    as (h3 & r' & H3 & Hsub3 & Hfresh & Hout).
  exists h3, r'. split; [|split; [|split]].
  - unfold Store.cell_body. store_step H1. store_step H2.
    store_step (store_assign_IQR_spec h2 e2 q1 q3 eq_refl eq_refl).
    store_step (store_assign_lower_bound_spec h2 e3 q1 (iqr_of q1 q3)
                  eq_refl eq_refl).
    store_step (store_assign_upper_bound_spec h2 e4 q3 (iqr_of q1 q3)
                  eq_refl eq_refl).
    exact H3.
  - etrans; [exact Hsub1|]. by etrans.
  - destruct (h !! r') eqn:Hr'; [|done].
    assert (h ⊆ h2) as Hsub by (by etrans).
    pose proof (lookup_weaken _ _ _ _ Hr' Hsub). congruence.
  - exact Hout.
Qed.

(** C9.  The cell leaves its input table as it found it.  With the tables
    and series as objects in a store: whatever the store and the variables
    at the start, after the cell (on the normal path and on both raising
    paths) the variable [titanic] holds the same reference, every object
    that existed is unchanged, so the table it refers to has the rows and
    columns it had; on the normal path [titanic_no_outliers] refers to a
    new object, at a reference that did not exist before and is not the
    input's, holding the filtered table, so that a later write to the
    result cannot reach the input. *)
Theorem input_table_object_unchanged col h e df :
  h !! Store.titanic e = Some (Store.Frame df) →
  Store.titanic (Store.env (snd (Store.cell_body col (Store.mkState h e))))
  = Store.titanic e
  ∧ h ⊆ Store.objects (snd (Store.cell_body col (Store.mkState h e)))
  ∧ Store.objects (snd (Store.cell_body col (Store.mkState h e)))
      !! Store.titanic e
    = Some (Store.Frame df)
  ∧ (fst (Store.cell_body col (Store.mkState h e)) = Ok () →
     ∃ r' out,
       Store.titanic_no_outliers
         (Store.env (snd (Store.cell_body col (Store.mkState h e))))
       = Some r'
       ∧ h !! r' = None
       ∧ r' ≠ Store.titanic e
       ∧ Store.objects (snd (Store.cell_body col (Store.mkState h e))) !! r'
         = Some (Store.Frame out)
       ∧ outlier_filter col df = Ok out
       ∧ ∀ o, <[r' := o]>
                (Store.objects (snd (Store.cell_body col (Store.mkState h e))))
              !! Store.titanic e
              = Some (Store.Frame df)).
Proof.
  intros Hdf.
  destruct (decide (col ∈ columns df)) as [Hc|Hc].
  - destruct (to_numeric (series col df)) as [fs|] eqn:Hs.
    + destruct (store_cell_numeric col h e df fs Hdf Hc Hs)
        as (h' & r' & -> & Hsub & Hfresh & Hout).
      simpl. split; [done|]. split; [done|].
      split; [by apply (lookup_weaken h)|].
      intros _. eexists r', _.
      assert (r' ≠ Store.titanic e) as Hne by congruence.
      split; [done|]. split; [done|]. split; [done|]. split; [exact Hout|].
      split; [by apply outlier_filter_numeric|].
      intros o. rewrite lookup_insert_ne by done. by apply (lookup_weaken h).
    + destruct (store_cell_type_error col h e df Hdf Hc Hs) as (h' & -> & Hsub).
      simpl. split; [done|]. split; [done|].
      split; [by apply (lookup_weaken h)|]. discriminate.
  - rewrite (store_cell_key_error col h e df Hdf Hc). simpl.
    split; [done|]. split; [done|]. split; [done|]. discriminate.
Qed.

Lemma input_table_object_unchanged_witness :
  Store.objects (snd (Store.cell_body "age" (Store.loaded skewed))) !! 0%nat
  = Some (Store.Frame skewed).
Proof.
  destruct (input_table_object_unchanged "age"
              {[ 0%nat := Store.Frame skewed ]}
              (Store.mkEnviron 0 None None None None None None) skewed)
    as (_ & _ & Hsame & _).
  - apply lookup_singleton_eq.
  - exact Hsame.
Defined.
